(** * A persistent vector (32-way bitmapped trie with a tail buffer)

    Shallow embedding of [index.js]: the class [PVec] and its iterator
    [PVecIterator].  Two models of the same code are given.

    - [PVec] / [PVecIterator]: arrays are immutable values.  The source only
      ever writes into arrays it has allocated in the same call ([[...a]],
      [new Array], [slice]), so a call is a function from snapshots to
      snapshots.
    - [Heap]: arrays live in a store and slots hold references, so that the
      in-place writes of the source and the sharing of nodes between snapshots
      are explicit.  This model is used to show that no operation writes into
      an array that existed before the call. *)

From Stdlib Require Import ZArith Lia Bool.
From stdpp Require Import base tactics option list.

Local Open Scope Z_scope.

(** ** JavaScript values and exceptions *)

(** What a slot of an array can hold.  [JNum] stands for the primitive values
    (the source never looks inside an element); a hole of [new Array(n)] reads
    as [JUndef], exactly as it does in the source after a spread. *)
#[warnings="-register-all"]
Inductive jsval : Type :=
  | JUndef
  | JNull
  | JNum (n : Z)
  | JArr (a : list jsval).

#[global] Instance jsval_inhabited : Inhabited jsval := populate JUndef.

(** The exceptions a call can end with.  [IndexOutOfRange] is the [Error] of
    [#boundsCheck], [EmptyCollectionError] the one of [pop]; [TypeError] and
    [RangeError] are raised by the language itself (reading a slot of
    [undefined]/[null], spreading a non-iterable, [new Array] of a bad
    length).  The last two are not JavaScript exceptions: [OutOfFuel] marks a
    loop that did not end within the bound given to its model, [DanglingRef]
    a reference to no array of the store (store model only). *)
Inductive error : Type :=
  | IndexOutOfRange
  | EmptyCollectionError
  | TypeError
  | RangeError
  | OutOfFuel
  | DanglingRef.

Inductive result (A : Type) : Type :=
  | Ok (a : A)
  | Throw (e : error).
Arguments Ok {A} a.
Arguments Throw {A} e.

#[global] Instance result_ret : MRet result := fun A a => Ok a.
#[global] Instance result_bind : MBind result := fun A B f m =>
  match m with
  | Ok a => f a
  | Throw e => Throw e
  end.

(** ** 32-bit integer operators *)

Definition two31 : Z := Eval cbv in 2 ^ 31.
Definition two32 : Z := Eval cbv in 2 ^ 32.

Definition to_uint32 (x : Z) : Z := x mod two32.
Definition to_int32 (x : Z) : Z := (x + two31) mod two32 - two31.

(** [a & b], [a ^ b], [~a] *)
Definition js_and (a b : Z) : Z := Z.land (to_int32 a) (to_int32 b).
Definition js_xor (a b : Z) : Z := Z.lxor (to_int32 a) (to_int32 b).
Definition js_not (a : Z) : Z := Z.lnot (to_int32 a).
(** [a << k] and [a >>> k]: the shift count is taken modulo 32 *)
Definition js_shl (a k : Z) : Z := to_int32 (Z.shiftl (to_int32 a) (to_uint32 k mod 32)).
Definition js_ushr (a k : Z) : Z := Z.shiftr (to_uint32 a) (to_uint32 k mod 32).

Definition SHIFT : Z := 5.
Definition BRANCHING_FACTOR : Z := Eval cbv in js_shl 1 SHIFT.
Definition MASK : Z := BRANCHING_FACTOR - 1.
Definition LOWER_BOUND : Z := 33.
Definition UPPER_BOUND : Z := 64.

(** ** Arrays *)

(** The slots of an array are a list; the inhabitant of the slot type is its
    [undefined]. *)

(** [a[k]] for an array [a]: a slot that is out of range reads [undefined]. *)
Definition js_index {A} `{Inhabited A} (a : list A) (k : Z) : A :=
  if k <? 0 then inhabitant else a !!! Z.to_nat k.

(** [v[k]] for any value: [undefined] and [null] have no properties. *)
Definition js_get (v : jsval) (k : Z) : result jsval :=
  match v with
  | JArr a => Ok (js_index a k)
  | JNum _ => Ok JUndef
  | JUndef | JNull => Throw TypeError
  end.

(** [a[k] = x] on an array: writing past the end extends the array. *)
Definition js_store {A} `{Inhabited A} (a : list A) (k : Z) (x : A) : list A :=
  if k <? 0 then a
  else
    let n := Z.to_nat k in
    if (n <? length a)%nat then <[n := x]> a
    else a ++ replicate (n - length a) inhabitant ++ [x].

(** [[...v]]: only arrays are iterable among the values of the model. *)
Definition js_spread (v : jsval) : result (list jsval) :=
  match v with
  | JArr a => Ok a
  | _ => Throw TypeError
  end.

(** [new Array(n)] *)
Definition js_new_array_of {A} `{Inhabited A} (n : Z) : list A :=
  replicate (Z.to_nat n) inhabitant.
Definition js_new_array (n : Z) : list jsval := js_new_array_of n.

(** [v.slice(0, v.length - 1)] *)
Definition js_slice_init (v : jsval) : result (list jsval) :=
  match v with
  | JArr a => Ok (take (length a - 1) a)
  | _ => Throw TypeError
  end.

(** [x === y].  The model has no object identity: two arrays are taken equal
    when they have the same content. *)
Fixpoint js_strict_eq (x y : jsval) : bool :=
  match x, y with
  | JUndef, JUndef => true
  | JNull, JNull => true
  | JNum n, JNum m => n =? m
  | JArr a, JArr b =>
      (fix go (a b : list jsval) : bool :=
         match a, b with
         | [], [] => true
         | x :: a', y :: b' => js_strict_eq x y && go a' b'
         | _, _ => false
         end) a b
  | _, _ => false
  end.

(** ** Loops over trie levels *)

(** [for (let level = start; level > bound; level -= SHIFT) s = body(level, s)] *)
Fixpoint loop_down {S : Type} (fuel : nat) (level bound : Z)
    (body : Z -> S -> result S) (s : S) : result S :=
  if level >? bound then
    match fuel with
    | O => Throw OutOfFuel
    | Datatypes.S fuel' =>
        s' ← body level s;
        loop_down fuel' (level - SHIFT) bound body s'
    end
  else Ok s.

Definition for_down {S : Type} (level bound : Z)
    (body : Z -> S -> result S) (s : S) : result S :=
  loop_down (Z.to_nat (level - bound)) level bound body s.

(** ** The vector *)

Module PVec.

Record t : Type := mk { size : Z; shift : Z; root : jsval; tail : jsval }.

(** [static #EMPTY_VEC = new PVec(0, 0, [], [])] *)
Definition EMPTY_VEC : t := mk 0 0 (JArr []) (JArr []).

Definition empty : t := EMPTY_VEC.

Definition boundsCheck (v : t) (index : Z) : result unit :=
  if (index >=? size v) || (index <? 0) then Throw IndexOutOfRange else Ok tt.

Definition tailOffset (v : t) : Z := js_and (size v - 1) (js_not MASK).

Definition tailSize (v : t) : Z :=
  if size v =? 0 then 0 else js_and (size v - 1) MASK + 1.


(** one step of the descent: [node = node[(i >>> level) & MASK]] *)
Definition descend (i : Z) (level : Z) (node : jsval) : result jsval :=
  js_get node (js_and (js_ushr i level) MASK).

Definition get (v : t) (i : Z) : result jsval :=
  _ ← boundsCheck v i;
  if i >=? tailOffset v then js_get (tail v) (js_and i MASK)
  else
    node ← for_down (shift v) 0 (descend i) (root v);
    js_get node (js_and i MASK).

(** The loop of [set].  [node] is the clone that is being filled in; the
    result is that clone once the rest of the path has been copied and
    spliced into it. *)
Fixpoint set_loop (fuel : nat) (level i : Z) (val : jsval)
    (node : list jsval) : result (list jsval) :=
  if level >? 0 then
    match fuel with
    | O => Throw OutOfFuel
    | S fuel' =>
        let subidx := js_and (js_ushr i level) MASK in
        child ← js_spread (js_index node subidx);
        child' ← set_loop fuel' (level - SHIFT) i val child;
        Ok (js_store node subidx (JArr child'))
    end
  else Ok (js_store node (js_and i MASK) val).

Definition set (v : t) (i : Z) (val : jsval) : result t :=
  _ ← boundsCheck v i;
  if i >=? tailOffset v then
    newTail ← js_spread (tail v);
    Ok (mk (size v) (shift v) (root v) (JArr (js_store newTail (js_and i MASK) val)))
  else
    newRoot ← js_spread (root v);
    newRoot' ← set_loop (Z.to_nat (shift v)) (shift v) i val newRoot;
    Ok (mk (size v) (shift v) (JArr newRoot') (tail v)).

Definition peek (v : t) : result jsval :=
  if size v >? 0 then get v (size v - 1) else Ok JNull.

Definition newPath (levels : Z) (tail : jsval) : result jsval :=
  for_down levels 0
    (fun _ topNode => Ok (JArr (js_store (js_new_array BRANCHING_FACTOR) 0 topNode)))
    tail.

Definition is_null (v : jsval) : bool :=
  match v with JNull => true | _ => false end.

(** The loop of [#pushLeaf], on the clone [node]. *)
Fixpoint pushLeaf_loop (fuel : nat) (level i : Z) (tail : jsval)
    (node : list jsval) : result (list jsval) :=
  if level >? SHIFT then
    match fuel with
    | O => Throw OutOfFuel
    | S fuel' =>
        let subidx := js_and (js_ushr i level) MASK in
        let child := js_index node subidx in
        if is_null child then
          path ← newPath (level - SHIFT) tail;
          Ok (js_store node subidx path)
        else
          child ← js_spread child;
          child' ← pushLeaf_loop fuel' (level - SHIFT) i tail child;
          Ok (js_store node subidx (JArr child'))
    end
  else Ok (js_store node (js_and (js_ushr i SHIFT) MASK) tail).

Definition pushLeaf (shift i : Z) (root tail : jsval) : result jsval :=
  newRoot ← js_spread root;
  newRoot' ← pushLeaf_loop (Z.to_nat shift) shift i tail newRoot;
  Ok (JArr newRoot').

Definition push (v : t) (val : jsval) : result t :=
  let ts := tailSize v in
  if negb (ts =? BRANCHING_FACTOR) then
    newTail ← js_spread (tail v);
    Ok (mk (size v + 1) (shift v) (root v) (JArr (newTail ++ [val])))
  else
    let newTail := JArr [val] in
    if size v =? BRANCHING_FACTOR then
      Ok (mk (size v + 1) 0 (tail v) newTail)
    else if js_ushr (size v) SHIFT >? js_shl 1 (shift v) then
      let newShift := shift v + SHIFT in
      let newRoot := js_new_array BRANCHING_FACTOR in
      let newRoot := js_store newRoot 0 (root v) in
      path ← newPath (shift v) (tail v);
      let newRoot := js_store newRoot 1 path in
      Ok (mk (size v + 1) newShift (JArr newRoot) newTail)
    else
      newRoot ← pushLeaf (shift v) (size v - 1) (root v) (tail v);
      Ok (mk (size v + 1) (shift v) newRoot newTail).

Definition lowerTrie (v : t) : result t :=
  let lowerShift := shift v - SHIFT in
  newRoot ← js_get (root v) 0;
  node ← js_get (root v) 1;
  node ← for_down lowerShift 0 (fun _ node => js_get node 0) node;
  Ok (mk (size v - 1) lowerShift newRoot node).

(** The loop of [#popTrie] while [hasDiverged] is false, on the clone
    [node]; it returns the finished clone and the last value of the loop
    variable [node].  Once [hasDiverged] is set the remaining rounds only
    follow children, which is the inner [for_down]. *)
Fixpoint popTrie_loop (fuel : nat) (level newTrieSize diverges : Z)
    (node : list jsval) : result (list jsval * jsval) :=
  if level >? 0 then
    match fuel with
    | O => Throw OutOfFuel
    | S fuel' =>
        let subIndex := js_and (js_ushr newTrieSize level) MASK in
        let child := js_index node subIndex in
        if negb (js_ushr diverges level =? 0) then
          last ← for_down (level - SHIFT) 0 (descend newTrieSize) child;
          Ok (js_store node subIndex JNull, last)
        else
          child ← js_spread child;
          r ← popTrie_loop fuel' (level - SHIFT) newTrieSize diverges child;
          Ok (js_store node subIndex (JArr r.1), r.2)
    end
  else Ok (node, JArr node).

Definition popTrie (v : t) : result t :=
  let newTrieSize := size v - LOWER_BOUND in
  let diverges := js_xor newTrieSize (newTrieSize - 1) in
  newRoot ← js_spread (root v);
  r ← popTrie_loop (Z.to_nat (shift v)) (shift v) newTrieSize diverges newRoot;
  Ok (mk (size v - 1) (shift v) (JArr r.1) r.2).

Definition pop (v : t) : result t :=
  if size v =? 0 then Throw EmptyCollectionError
  else if size v =? 1 then Ok empty
  else if js_and (size v - 1) MASK >? 0 then
    newTail ← js_slice_init (tail v);
    Ok (mk (size v - 1) (shift v) (root v) (JArr newTail))
  else
    let newTrieSize := size v - LOWER_BOUND in
    if newTrieSize =? 0 then Ok (mk BRANCHING_FACTOR 0 (JArr []) (root v))
    else if newTrieSize =? js_shl 1 (shift v) then lowerTrie v
    else popTrie v.

(** [for (let i = 0; i < this.size(); i++) if (this.get(i) !== other.get(i)) return false] *)
Fixpoint isEqualTo_loop (fuel : nat) (v other : t) (i : Z) : result bool :=
  if i <? size v then
    match fuel with
    | O => Throw OutOfFuel
    | S fuel' =>
        x ← get v i;
        y ← get other i;
        if negb (js_strict_eq x y) then Ok false
        else isEqualTo_loop fuel' v other (i + 1)
    end
  else Ok true.

Definition isEqualTo (v other : t) : result bool :=
  if negb (size v =? size other) then Ok false
  else isEqualTo_loop (Z.to_nat (size v)) v other 0.

(** [PVec.from(xs)] and [concat(xs)]: a push for each element, in order. *)
Fixpoint concat (p : t) (xs : list jsval) : result t :=
  match xs with
  | [] => Ok p
  | x :: xs' => p' ← push p x; concat p' xs'
  end.

Definition from (xs : list jsval) : result t := concat empty xs.

End PVec.

(** ** The sequential cursor *)

Module PVecIterator.

Record t : Type := mk {
  size : Z;
  tail : jsval;
  stack : list jsval;
  leaf : jsval;
  index : Z;
  jump : Z;
  done : bool
}.

(** [new Array(n).fill([])]: [n] is the quotient [shift / SHIFT] of two
    numbers, and [new Array] throws unless it is a non-negative integer. *)
Definition js_array_fill (shift : Z) : result (list jsval) :=
  if (shift mod SHIFT =? 0) && (0 <=? shift)
  then Ok (replicate (Z.to_nat (shift / SHIFT)) (JArr []))
  else Throw RangeError.

(** [for (let i = n - 1; i >= 0; i--) stack[i] = stack[i + 1][0]] *)
Fixpoint seed_stack (n : nat) (stack : list jsval) : result (list jsval) :=
  match n with
  | O => Ok stack
  | S i =>
      x ← js_get (js_index stack (Z.of_nat i + 1)) 0;
      seed_stack i (js_store stack (Z.of_nat i) x)
  end.

Definition constructor (size shift : Z) (root tail : jsval) : result t :=
  stack ← js_array_fill shift;
  if size <=? BRANCHING_FACTOR then Ok (mk size tail stack tail 0 BRANCHING_FACTOR false)
  else if size <=? UPPER_BOUND then Ok (mk size tail stack root 0 BRANCHING_FACTOR false)
  else
    let len := Z.of_nat (length stack) in
    let stack := js_store stack (len - 1) root in
    stack ← seed_stack (Z.to_nat (len - 1)) stack;
    leaf ← js_get (js_index stack 0) 0;
    Ok (mk size tail stack leaf 0 BRANCHING_FACTOR false).

(** [while ((diff >>> level) !== 0) { stackUpdates++; level += SHIFT }].
    The shift count is read modulo 32, so the tests repeat after 32 rounds:
    a loop that has not ended by then never ends. *)
Fixpoint count_updates (fuel : nat) (diff level stackUpdates : Z) : result (Z * Z) :=
  if negb (js_ushr diff level =? 0) then
    match fuel with
    | O => Throw OutOfFuel
    | S fuel' => count_updates fuel' diff (level + SHIFT) (stackUpdates + 1)
    end
  else Ok (stackUpdates, level).

(** [while (stackUpdates > 0) { stack[stackUpdates - 1] =
    stack[stackUpdates][(index >>> level) & MASK]; stackUpdates--; level -= SHIFT }] *)
Fixpoint refresh (n : nat) (index level : Z) (stack : list jsval) : result (list jsval) :=
  match n with
  | O => Ok stack
  | S n' =>
      x ← js_get (js_index stack (Z.of_nat n)) (js_and (js_ushr index level) MASK);
      refresh n' index (level - SHIFT) (js_store stack (Z.of_nat n') x)
  end.

(** [next()]: [None] is the record [{done: true}], [Some x] is
    [{done: false, value: x}]; the cursor after the call comes with it. *)
Definition next (it : t) : result (option jsval * t) :=
  if index it =? size it then Ok (None, it)
  else
    it ← (if index it =? jump it then
            if index it >=? js_and (size it - 1) (js_not MASK) then
              Ok (mk (size it) (tail it) (stack it) (tail it) (index it) (jump it) (done it))
            else
              let jump' := jump it + BRANCHING_FACTOR in
              let diff := js_xor (index it) (index it - 1) in
              c ← count_updates 32 diff (2 * SHIFT) 0;
              let stackUpdates := c.1 in
              let level := c.2 - SHIFT in
              stack' ← refresh (Z.to_nat stackUpdates) (index it) level (stack it);
              leaf' ← js_get (js_index stack' 0) (js_and (js_ushr (index it) SHIFT) MASK);
              Ok (mk (size it) (tail it) stack' leaf' (index it) jump' (done it))
          else Ok it);
    value ← js_get (leaf it) (js_and (index it) MASK);
    Ok (Some value,
        mk (size it) (tail it) (stack it) (leaf it) (index it + 1) (jump it) (done it)).

(** The sequence a [for (const x of it)] loop sees: [next] is called until
    it answers [done].  [fuel] bounds the number of elements taken. *)
Fixpoint drain (fuel : nat) (it : t) : result (list jsval) :=
  r ← next it;
  match r.1 with
  | None => Ok []
  | Some x =>
      match fuel with
      | O => Throw OutOfFuel
      | S fuel' => xs ← drain fuel' r.2; Ok (x :: xs)
      end
  end.

End PVecIterator.

(** [v[Symbol.iterator]()] *)
Definition iterate (v : PVec.t) : result PVecIterator.t :=
  PVecIterator.constructor (PVec.size v) (PVec.shift v) (PVec.root v) (PVec.tail v).

(** [v.toArray()]: the elements in the order the cursor yields them. *)
Definition toArray (v : PVec.t) : result (list jsval) :=
  it ← iterate v;
  PVecIterator.drain (Z.to_nat (PVec.size v)) it.

(** [get(0), get(1), ..., get(n - 1)] read in order. *)
Fixpoint get_from (v : PVec.t) (i : Z) (n : nat) : result (list jsval) :=
  match n with
  | O => Ok []
  | S n' => x ← PVec.get v i; xs ← get_from v (i + 1) n'; Ok (x :: xs)
  end.

Definition get_all (v : PVec.t) : result (list jsval) :=
  get_from v 0 (Z.to_nat (PVec.size v)).

(** ** The functional helpers of [PVec] *)

Module Functional.

(** [for (const x of it) acc = body(acc, x)]: the loop shared by [map],
    [reduce] and [filter], driven by the cursor.  The body may throw. *)
Fixpoint for_of {A : Type} (fuel : nat) (body : A -> jsval -> result A)
    (it : PVecIterator.t) (acc : A) : result A :=
  r ← PVecIterator.next it;
  match r.1 with
  | None => Ok acc
  | Some x =>
      match fuel with
      | O => Throw OutOfFuel
      | S fuel' => acc' ← body acc x; for_of fuel' body r.2 acc'
      end
  end.

(** [v.reduce(f, init)] *)
Definition reduce {A : Type} (f : A -> jsval -> result A) (init : A)
    (v : PVec.t) : result A :=
  it ← iterate v;
  for_of (Z.to_nat (PVec.size v)) f it init.

(** [v.map(f)], for a callback [f] that returns *)
Definition map (f : jsval -> jsval) (v : PVec.t) : result PVec.t :=
  it ← iterate v;
  for_of (Z.to_nat (PVec.size v)) (fun p x => PVec.push p (f x)) it PVec.empty.

(** [v.filter(predicate)]: [reduce] with a callback that pushes the elements
    the predicate accepts *)
Definition filter (predicate : jsval -> bool) (v : PVec.t) : result PVec.t :=
  reduce (fun acc x => if predicate x then PVec.push acc x else Ok acc) PVec.empty v.

End Functional.

(** ** The same code over a store of arrays

    A slot holds a primitive value or a reference to an array of the store.
    The store is the list of all arrays in allocation order and a reference is
    a position in it, so allocation appends and never reuses a position.  A
    command is a function from the store to an outcome and the store it
    leaves: an exception keeps the writes made before it. *)

Module Heap.

Inductive hval : Type :=
  | HUndef
  | HNull
  | HNum (n : Z)
  | HRef (r : nat).

#[global] Instance hval_inhabited : Inhabited hval := populate HUndef.

Definition store : Type := list (list hval).

Definition M (A : Type) : Type := store -> result A * store.

#[global] Instance M_ret : MRet M := fun A a h => (Ok a, h).
#[global] Instance M_bind : MBind M := fun A B f m h =>
  match m h with
  | (Ok a, h') => f a h'
  | (Throw e, h') => (Throw e, h')
  end.

Definition throw {A} (e : error) : M A := fun h => (Throw e, h).

(** a new array with the given slots: [new Array(..)], an array literal,
    the result of a spread or of [slice] *)
Definition alloc (a : list hval) : M hval :=
  fun h => (Ok (HRef (length h)), h ++ [a]).

(** [v[k]], read in the store [h] *)
Definition fetch (h : store) (v : hval) (k : Z) : result hval :=
  match v with
  | HRef r =>
      match h !! r with
      | Some a => Ok (js_index a k)
      | None => Throw DanglingRef
      end
  | HNum _ => Ok HUndef
  | HUndef | HNull => Throw TypeError
  end.

Definition read (v : hval) (k : Z) : M hval := fun h => (fetch h v k, h).

(** [v[k] = x]: the array [v] refers to is changed in place *)
Definition write (v : hval) (k : Z) (x : hval) : M unit := fun h =>
  match v with
  | HRef r =>
      match h !! r with
      | Some a => (Ok tt, <[r := js_store a k x]> h)
      | None => (Throw DanglingRef, h)
      end
  | HNum _ => (Ok tt, h)
  | HUndef | HNull => (Throw TypeError, h)
  end.

(** [[...v]] *)
Definition spread (v : hval) : M hval := fun h =>
  match v with
  | HRef r =>
      match h !! r with
      | Some a => alloc a h
      | None => (Throw DanglingRef, h)
      end
  | _ => (Throw TypeError, h)
  end.

(** [v.push(x)], in place *)
Definition array_push (v : hval) (x : hval) : M unit := fun h =>
  match v with
  | HRef r =>
      match h !! r with
      | Some a => (Ok tt, <[r := a ++ [x]]> h)
      | None => (Throw DanglingRef, h)
      end
  | _ => (Throw TypeError, h)
  end.

(** [v.slice(0, v.length - 1)] *)
Definition slice_init (v : hval) : M hval := fun h =>
  match v with
  | HRef r =>
      match h !! r with
      | Some a => alloc (take (length a - 1) a) h
      | None => (Throw DanglingRef, h)
      end
  | _ => (Throw TypeError, h)
  end.

Fixpoint loop_down {S : Type} (fuel : nat) (level bound : Z)
    (body : Z -> S -> M S) (s : S) : M S :=
  if level >? bound then
    match fuel with
    | O => throw OutOfFuel
    | Datatypes.S fuel' =>
        s' ← body level s;
        loop_down fuel' (level - SHIFT) bound body s'
    end
  else mret s.

Definition for_down {S : Type} (level bound : Z)
    (body : Z -> S -> M S) (s : S) : M S :=
  loop_down (Z.to_nat (level - bound)) level bound body s.

Record t : Type := mk { size : Z; shift : Z; root : hval; tail : hval }.

(** The store once the class is loaded holds the two arrays of
    [new PVec(0, 0, [], [])]. *)
Definition init_store : store := [[]; []].
Definition EMPTY_VEC : t := mk 0 0 (HRef 0) (HRef 1).
Definition empty : t := EMPTY_VEC.

Definition boundsCheck (v : t) (index : Z) : M unit :=
  if (index >=? size v) || (index <? 0) then throw IndexOutOfRange else mret tt.

Definition tailOffset (v : t) : Z := js_and (size v - 1) (js_not MASK).

Definition tailSize (v : t) : Z :=
  if size v =? 0 then 0 else js_and (size v - 1) MASK + 1.

Definition get (v : t) (i : Z) : M hval :=
  _ ← boundsCheck v i;
  if i >=? tailOffset v then read (tail v) (js_and i MASK)
  else
    node ← for_down (shift v) 0
              (fun level node => read node (js_and (js_ushr i level) MASK))
              (root v);
    read node (js_and i MASK).

Definition set (v : t) (i : Z) (val : hval) : M t :=
  _ ← boundsCheck v i;
  if i >=? tailOffset v then
    newTail ← spread (tail v);
    _ ← write newTail (js_and i MASK) val;
    mret (mk (size v) (shift v) (root v) newTail)
  else
    newRoot ← spread (root v);
    node ← for_down (shift v) 0
              (fun level node =>
                 let subidx := js_and (js_ushr i level) MASK in
                 child ← read node subidx;
                 child ← spread child;
                 _ ← write node subidx child;
                 mret child)
              newRoot;
    _ ← write node (js_and i MASK) val;
    mret (mk (size v) (shift v) newRoot (tail v)).

Definition newPath (levels : Z) (tail : hval) : M hval :=
  for_down levels 0
    (fun _ topNode =>
       newTop ← alloc (js_new_array_of BRANCHING_FACTOR);
       _ ← write newTop 0 topNode;
       mret newTop)
    tail.

Definition is_null (v : hval) : bool :=
  match v with HNull => true | _ => false end.

Fixpoint pushLeaf_loop (fuel : nat) (level i : Z) (tail newRoot node : hval) : M hval :=
  if level >? SHIFT then
    match fuel with
    | O => throw OutOfFuel
    | S fuel' =>
        let subidx := js_and (js_ushr i level) MASK in
        child ← read node subidx;
        if is_null child then
          path ← newPath (level - SHIFT) tail;
          _ ← write node subidx path;
          mret newRoot
        else
          child ← spread child;
          _ ← write node subidx child;
          pushLeaf_loop fuel' (level - SHIFT) i tail newRoot child
    end
  else
    _ ← write node (js_and (js_ushr i SHIFT) MASK) tail;
    mret newRoot.

Definition pushLeaf (shift i : Z) (root tail : hval) : M hval :=
  newRoot ← spread root;
  pushLeaf_loop (Z.to_nat shift) shift i tail newRoot newRoot.

Definition push (v : t) (val : hval) : M t :=
  let ts := tailSize v in
  if negb (ts =? BRANCHING_FACTOR) then
    newTail ← spread (tail v);
    _ ← array_push newTail val;
    mret (mk (size v + 1) (shift v) (root v) newTail)
  else
    newTail ← alloc [val];
    if size v =? BRANCHING_FACTOR then
      mret (mk (size v + 1) 0 (tail v) newTail)
    else if js_ushr (size v) SHIFT >? js_shl 1 (shift v) then
      let newShift := shift v + SHIFT in
      newRoot ← alloc (js_new_array_of BRANCHING_FACTOR);
      _ ← write newRoot 0 (root v);
      path ← newPath (shift v) (tail v);
      _ ← write newRoot 1 path;
      mret (mk (size v + 1) newShift newRoot newTail)
    else
      newRoot ← pushLeaf (shift v) (size v - 1) (root v) (tail v);
      mret (mk (size v + 1) (shift v) newRoot newTail).

Definition lowerTrie (v : t) : M t :=
  let lowerShift := shift v - SHIFT in
  newRoot ← read (root v) 0;
  node ← read (root v) 1;
  node ← for_down lowerShift 0 (fun _ node => read node 0) node;
  mret (mk (size v - 1) lowerShift newRoot node).

(** the loop of [#popTrie]; its state is [(hasDiverged, node)] *)
Definition popTrie_body (newTrieSize diverges : Z) (level : Z)
    (s : bool * hval) : M (bool * hval) :=
  let '(hasDiverged, node) := s in
  let subIndex := js_and (js_ushr newTrieSize level) MASK in
  child ← read node subIndex;
  if hasDiverged then mret (true, child)
  else if negb (js_ushr diverges level =? 0) then
    _ ← write node subIndex HNull;
    mret (true, child)
  else
    child ← spread child;
    _ ← write node subIndex child;
    mret (false, child).

Definition popTrie (v : t) : M t :=
  let newTrieSize := size v - LOWER_BOUND in
  let diverges := js_xor newTrieSize (newTrieSize - 1) in
  newRoot ← spread (root v);
  s ← for_down (shift v) 0 (popTrie_body newTrieSize diverges) (false, newRoot);
  mret (mk (size v - 1) (shift v) newRoot s.2).

Definition pop (v : t) : M t :=
  if size v =? 0 then throw EmptyCollectionError
  else if size v =? 1 then mret empty
  else if js_and (size v - 1) MASK >? 0 then
    newTail ← slice_init (tail v);
    mret (mk (size v - 1) (shift v) (root v) newTail)
  else
    let newTrieSize := size v - LOWER_BOUND in
    if newTrieSize =? 0 then
      newRoot ← alloc [];
      mret (mk BRANCHING_FACTOR 0 newRoot (root v))
    else if newTrieSize =? js_shl 1 (shift v) then lowerTrie v
    else popTrie v.

(** the three operations that derive a snapshot from a snapshot *)
Inductive op : Type :=
  | OpSet (i : Z) (val : hval)
  | OpPush (val : hval)
  | OpPop.

Definition run (o : op) (v : t) : M t :=
  match o with
  | OpSet i val => set v i val
  | OpPush val => push v val
  | OpPop => pop v
  end.

(** what [get] answers in a given store *)
Definition get_in (h : store) (v : t) (i : Z) : result hval := (get v i h).1.

(** a sequence of pushes from the empty vector *)
Fixpoint concat (p : t) (xs : list hval) : M t :=
  match xs with
  | [] => mret p
  | x :: xs' => p' ← push p x; concat p' xs'
  end.

(** the content of a value of the store as a value of the first model;
    [fuel] bounds the nesting depth that is followed *)
Fixpoint decode (fuel : nat) (h : store) (v : hval) : jsval :=
  match v with
  | HUndef => JUndef
  | HNull => JNull
  | HNum n => JNum n
  | HRef r =>
      match fuel with
      | O => JUndef
      | S fuel' =>
          match h !! r with
          | Some a => JArr (decode fuel' h <$> a)
          | None => JUndef
          end
      end
  end.

Definition decode_vec (h : store) (v : t) : PVec.t :=
  PVec.mk (size v) (shift v) (decode 4 h (root v)) (decode 4 h (tail v)).

End Heap.

(** * Well-formed snapshots and auxiliary notions *)

(** ** Well-formed snapshots *)

(** The leaves of a trie are arrays of exactly 32 elements. *)
Definition leaves_ok (ls : list (list jsval)) : Prop :=
  Forall (fun c => length c = 32%nat) ls.

(** Slots to the right of the last child: never assigned ([undefined]) or
    unlinked by [#popTrie] ([null]). *)
Definition unused (pad : list jsval) : Prop :=
  Forall (fun x => x = JUndef \/ x = JNull) pad.

(** A node whose first children are the leaves [ls]. *)
Definition node_of (ls : list (list jsval)) (pad : list jsval) : jsval :=
  JArr ((JArr <$> ls) ++ pad).

(** [trie_shape shift root ls]: [root] is a trie of height [shift / 5 + 1]
    whose leaves are, from left to right, [ls]. *)
Inductive trie_shape : Z -> jsval -> list (list jsval) -> Prop :=
  | shape_empty :
      trie_shape 0 (JArr []) []
  | shape_leaf c :
      trie_shape 0 (JArr c) [c]
  | shape_flat ls pad :
      (2 <= length ls)%nat ->
      (length ls + length pad = 32)%nat ->
      unused pad ->
      trie_shape 5 (node_of ls pad) ls
  | shape_deep ls0 ls1 pad :
      length ls0 = 32%nat ->
      (1 <= length ls1)%nat ->
      (length ls1 + length pad = 32)%nat ->
      unused pad ->
      trie_shape 10
        (JArr (node_of ls0 [] :: node_of ls1 pad :: replicate 30 JUndef))
        (ls0 ++ ls1).

(** [Rep v l]: the snapshot [v] is well formed and holds the sequence [l]:
    the leaves of its trie followed by its tail. *)
Inductive Rep (v : PVec.t) (l : list jsval) : Prop :=
  | Rep_intro (ls : list (list jsval)) (tl : list jsval) :
      leaves_ok ls ->
      trie_shape (PVec.shift v) (PVec.root v) ls ->
      PVec.tail v = JArr tl ->
      l = mjoin ls ++ tl ->
      PVec.size v = Z.of_nat (length l) ->
      (length tl <= 32)%nat ->
      (ls <> [] -> tl <> []) ->
      Rep v l.

(** The snapshots a program can hold: the empty vector and what [push], [set]
    and [pop] return. *)
Inductive reachable : PVec.t -> Prop :=
  | reach_empty : reachable PVec.empty
  | reach_push v x w : reachable v -> PVec.push v x = Ok w -> reachable w
  | reach_set v i x w : reachable v -> PVec.set v i x = Ok w -> reachable w
  | reach_pop v w : reachable v -> PVec.pop v = Ok w -> reachable w.

(** the sequence without its last element *)
Definition init (l : list jsval) : list jsval := take (length l - 1) l.

(** where [n ^ (n - 1)] has bits, for [n = 32 * m] below 2048 *)
Definition diverges_ok (m : nat) : bool :=
  let n := 32 * Z.of_nat m in
  let diverges := js_xor n (n - 1) in
  negb (js_ushr diverges 5 =? 0) &&
  ((m mod 32 =? 0)%nat || (js_ushr diverges 10 =? 0)) &&
  ((js_ushr diverges 10 =? 0) || (js_ushr diverges 15 =? 0)).

(** the cursor moved to another position, everything else kept *)
Definition at_index (it : PVecIterator.t) (i : Z) : PVecIterator.t :=
  PVecIterator.mk (PVecIterator.size it) (PVecIterator.tail it) (PVecIterator.stack it) (PVecIterator.leaf it) i (PVecIterator.jump it) (PVecIterator.done it).

(** the ancestors the cursor has cached while it reads leaf number [k] *)
Definition stack_for (sh : Z) (root : jsval) (k : Z) (stack : list jsval) : Prop :=
  if sh =? 5 then stack = [root]
  else if sh =? 10 then
    exists child, js_get root (k / 32) = Ok child /\ stack = [child; root]
  else True.

(** [get(i)] only indexes populated slots: the slot read at each level lies
    inside the array, and every child the descent steps into is an array.
    The three functions follow the control flow of [get]. *)
Definition slot_populated (node : jsval) (k : Z) : bool :=
  match node with
  | JArr a => (0 <=? k) && (k <? Z.of_nat (length a))
  | _ => false
  end.

Definition is_node (v : jsval) : bool :=
  match v with JArr _ => true | _ => false end.

Fixpoint descent_populated (fuel : nat) (level i : Z) (node : jsval) : bool :=
  if level >? 0 then
    match fuel with
    | O => false
    | S fuel' =>
        let k := js_and (js_ushr i level) MASK in
        slot_populated node k &&
        match js_get node k with
        | Ok child => is_node child && descent_populated fuel' (level - SHIFT) i child
        | Throw _ => false
        end
    end
  else slot_populated node (js_and i MASK).

Definition get_populated (v : PVec.t) (i : Z) : bool :=
  if i >=? PVec.tailOffset v then slot_populated (PVec.tail v) (js_and i MASK)
  else descent_populated (Z.to_nat (PVec.shift v)) (PVec.shift v) i (PVec.root v).

(** the elements [0, 1, ..., n - 1] *)
Definition nums (n : nat) : list jsval := (fun k => JNum (Z.of_nat k)) <$> seq 0 n.

(** a vector of 70 elements (two leaves in the trie, six elements in the
    tail), used to run the theorems on a concrete input *)
Definition vec70 : PVec.t :=
  Eval vm_compute in
    match PVec.from (nums 70) with Ok v => v | Throw _ => PVec.empty end.

(** the same 70 pushes in the store model: the vector and the store they leave *)
Definition hvec70_run : result Heap.t * Heap.store :=
  Eval vm_compute in
    Heap.concat Heap.empty ((fun k => Heap.HNum (Z.of_nat k)) <$> seq 0 70) Heap.init_store.

Definition hvec70 : Heap.t :=
  match hvec70_run.1 with Ok v => v | Throw _ => Heap.empty end.

Definition store70 : Heap.store := hvec70_run.2.

(** a value that does not refer to an array of [h0] *)
Definition fresh (h0 : Heap.store) (v : Heap.hval) : Prop :=
  match v with
  | Heap.HRef r => (length h0 <= r)%nat
  | _ => True
  end.

(** [m] leaves the arrays of [h0] as they are, and its results satisfy [Q] *)
Definition keeps (h0 : Heap.store) {A} (m : Heap.M A) (Q : A -> Prop) : Prop :=
  forall h, h0 `prefix_of` h ->
    h0 `prefix_of` (m h).2 /\ forall a, (m h).1 = Ok a -> Q a.

(** [m] only reads: it leaves the store as it is, and an answer it gives in
    a store is the answer it gives in every extension of that store *)
Definition reads {A} (m : Heap.M A) : Prop :=
  forall h, (m h).2 = h /\
    forall ext a, (m h).1 = Ok a -> (m (h ++ ext)).1 = Ok a.

(** ** Notions used by the further properties *)

(** a left fold whose step may throw *)
Fixpoint fold_result {A : Type} (f : A -> jsval -> result A) (acc : A)
    (xs : list jsval) : result A :=
  match xs with
  | [] => Ok acc
  | x :: xs' => acc' ← f acc x; fold_result f acc' xs'
  end.


(** the height of the trie as a function of the number of elements *)
Definition shift_of_size (size : Z) : Z :=
  if size <=? 64 then 0 else if size <=? 1056 then 5 else 10.


(** ** Counting allocations in the store model *)

(** the number of iterations of a loop that counts down by [SHIFT] over a
    distance [d] *)
Definition levels (d : Z) : nat := Z.to_nat ((d + 4) / 5).


(** * Proofs *)

(** ** 32-bit operators on small numbers *)

Lemma to_int32_small x : - two31 <= x < two31 -> to_int32 x = x.
Proof.
  intros Hx. unfold to_int32, two31, two32 in *.
  rewrite Z.mod_small by lia. lia.
Qed.

Lemma to_uint32_small x : 0 <= x < two32 -> to_uint32 x = x.
Proof. intros Hx. unfold to_uint32. apply Z.mod_small. exact Hx. Qed.

Lemma js_and_MASK x : 0 <= x < two31 -> js_and x MASK = x mod 32.
Proof.
  intros Hx. unfold js_and. rewrite (to_int32_small x) by (unfold two31 in *; lia).
  change (to_int32 MASK) with (Z.ones 5). rewrite Z.land_ones by lia. reflexivity.
Qed.

Lemma js_ushr_small x k : 0 <= x < two32 -> 0 <= k < 32 -> js_ushr x k = x / 2 ^ k.
Proof.
  intros Hx Hk. unfold js_ushr. rewrite (to_uint32_small x) by exact Hx.
  rewrite (to_uint32_small k) by (unfold two32; lia).
  rewrite Z.mod_small by lia. apply Z.shiftr_div_pow2. lia.
Qed.

Lemma js_and_not_MASK x : 0 <= x < two31 -> js_and x (js_not MASK) = 32 * (x / 32).
Proof.
  intros Hx. unfold js_and. rewrite (to_int32_small x) by (unfold two31 in *; lia).
  change (to_int32 (js_not MASK)) with (Z.lnot (Z.ones 5)).
  rewrite <- Z.ldiff_land, Z.ldiff_ones_r by lia.
  rewrite Z.shiftr_div_pow2, Z.shiftl_mul_pow2 by lia. change (2 ^ 5) with 32. lia.
Qed.

(** ** Loops and array access *)

Lemma bind_Ok {A B} (f : A -> result B) (a : A) : (Ok a ≫= f) = f a.
Proof. reflexivity. Qed.

Lemma loop_down_fuel {S} (body : Z -> S -> result S) bound fuel1 :
  forall fuel2 level s,
  (Z.to_nat (level - bound) <= fuel1)%nat ->
  (Z.to_nat (level - bound) <= fuel2)%nat ->
  loop_down fuel1 level bound body s = loop_down fuel2 level bound body s.
Proof.
  induction fuel1 as [|fuel1 IH]; intros fuel2 level s H1 H2.
  - destruct fuel2; simpl; destruct (Z.gtb_spec level bound); try lia; reflexivity.
  - destruct fuel2 as [|fuel2]; simpl;
      destruct (Z.gtb_spec level bound); try lia; try reflexivity.
    destruct (body level s) as [s'|e]; [|reflexivity]. simpl.
    apply IH; unfold SHIFT; lia.
Qed.

Lemma loop_down_enough {S} (body : Z -> S -> result S) bound fuel level s :
  (Z.to_nat (level - bound) <= fuel)%nat ->
  loop_down fuel level bound body s = for_down level bound body s.
Proof. intros Hf. apply loop_down_fuel; lia. Qed.

Lemma for_down_step {S} (body : Z -> S -> result S) level bound s :
  bound < level ->
  for_down level bound body s =
  (s' ← body level s; for_down (level - SHIFT) bound body s').
Proof.
  intros Hlt. unfold for_down.
  destruct (Z.to_nat (level - bound)) as [|n] eqn:E; [lia|].
  simpl. destruct (Z.gtb_spec level bound); [|lia].
  destruct (body level s) as [s'|e]; [|reflexivity]. simpl.
  apply loop_down_enough. unfold SHIFT. lia.
Qed.

Lemma for_down_done {S} (body : Z -> S -> result S) level bound s :
  level <= bound -> for_down level bound body s = Ok s.
Proof.
  intros Hle. unfold for_down.
  destruct (Z.to_nat (level - bound)); simpl;
    destruct (Z.gtb_spec level bound); try lia; reflexivity.
Qed.

Lemma bind_ret_r {A} (m : result A) : (m ≫= Ok) = m.
Proof. destruct m; reflexivity. Qed.

Lemma for_down_0 {S} (body : Z -> S -> result S) s : for_down 0 0 body s = Ok s.
Proof. apply for_down_done. lia. Qed.
Lemma for_down_5 {S} (body : Z -> S -> result S) s :
  for_down 5 0 body s = body 5 s.
Proof.
  rewrite for_down_step by lia. change (5 - SHIFT) with 0.
  destruct (body 5 s); reflexivity.
Qed.
Lemma for_down_10 {S} (body : Z -> S -> result S) s :
  for_down 10 0 body s = (s1 ← body 10 s; body 5 s1).
Proof.
  rewrite for_down_step by lia. change (10 - SHIFT) with 5.
  destruct (body 10 s) as [s1|]; [|reflexivity]. simpl. apply for_down_5.
Qed.

Lemma js_index_nat {A} `{Inhabited A} (a : list A) (k : Z) :
  0 <= k -> js_index a k = a !!! Z.to_nat k.
Proof. intros Hk. unfold js_index. destruct (Z.ltb_spec k 0); [lia | reflexivity]. Qed.

Lemma js_index_node ls pad k :
  0 <= k < Z.of_nat (length ls) ->
  js_index ((JArr <$> ls) ++ pad) k = JArr (ls !!! Z.to_nat k).
Proof.
  intros Hk. rewrite js_index_nat by lia.
  rewrite lookup_total_app_l by (rewrite length_fmap; lia).
  apply list_lookup_total_fmap. lia.
Qed.

Lemma join_lookup_total (ls : list (list jsval)) (i : Z) :
  leaves_ok ls -> 0 <= i < 32 * Z.of_nat (length ls) ->
  mjoin ls !!! Z.to_nat i = (ls !!! Z.to_nat (i / 32)) !!! Z.to_nat (i mod 32).
Proof.
  intros Hls Hi.
  assert (Hk : (Z.to_nat (i / 32) < length ls)%nat) by (apply Nat2Z.inj_lt; rewrite Z2Nat.id; [apply Z.div_lt_upper_bound; lia | apply Z.div_pos; lia]).
  destruct (lookup_lt_is_Some_2 ls _ Hk) as [c Hc].
  assert (Hlen : length c = 32%nat).
  { eapply Forall_lookup_1 in Hls; eauto. }
  assert (Hs : (Z.to_nat (i mod 32) < length c)%nat).
  { rewrite Hlen. pose proof (Z.mod_pos_bound i 32). lia. }
  destruct (lookup_lt_is_Some_2 c _ Hs) as [x Hx].
  rewrite (list_lookup_total_correct ls _ c Hc).
  rewrite (list_lookup_total_correct c _ x Hx).
  apply list_lookup_total_correct.
  apply (join_lookup_Some_same_length 32 ls); [exact Hls|].
  exists (Z.to_nat (i / 32)), c, (Z.to_nat (i mod 32)). split_and!; auto.
  pose proof (Z.div_mod i 32). pose proof (Z.mod_pos_bound i 32).
  assert (0 <= i / 32) by (apply Z.div_pos; lia). lia.
Qed.

Lemma length_join_leaves (ls : list (list jsval)) :
  leaves_ok ls -> length (mjoin ls) = (32 * length ls)%nat.
Proof.
  induction 1 as [|c ls Hc _ IH]; simpl; [reflexivity|].
  rewrite length_app, Hc, IH. lia.
Qed.

Lemma descend_shape s r ls i :
  trie_shape s r ls -> 0 <= i < 32 * Z.of_nat (length ls) ->
  for_down s 0 (PVec.descend i) r = Ok (JArr (ls !!! Z.to_nat (i / 32))).
Proof.
  intros Hs Hi. destruct Hs as [|c|ls pad Hn Hp Hu|ls0 ls1 pad H0 H1 Hp Hu].
  - simpl in Hi. lia.
  - rewrite for_down_0. simpl in Hi.
    replace (i / 32) with 0 by (symmetry; apply Z.div_small; lia). reflexivity.
  - rewrite for_down_5. unfold PVec.descend, node_of. simpl.
    rewrite js_ushr_small by (unfold two32; lia).
    assert (0 <= i / 32 < Z.of_nat (length ls)).
    { split; [apply Z.div_pos; lia | apply Z.div_lt_upper_bound; lia]. }
    change (2 ^ 5) with 32.
    rewrite js_and_MASK by (unfold two31; lia).
    rewrite Z.mod_small by lia. rewrite js_index_node by lia. reflexivity.
  - rewrite for_down_10. unfold PVec.descend.
    rewrite length_app in Hi.
    rewrite !js_ushr_small by (unfold two32; lia).
    change (2 ^ 5) with 32. change (2 ^ 10) with 1024.
    assert (0 <= i / 32 < 32 + Z.of_nat (length ls1)).
    { split; [apply Z.div_pos; lia | apply Z.div_lt_upper_bound; lia]. }
    assert (0 <= i / 1024 < 2).
    { split; [apply Z.div_pos; lia | apply Z.div_lt_upper_bound; lia]. }
    rewrite !js_and_MASK by (unfold two31; lia).
    rewrite (Z.mod_small (i / 1024)) by lia.
    assert (Hc : i / 1024 = 0 \/ i / 1024 = 1) by lia.
    destruct Hc as [Hc|Hc]; rewrite Hc; simpl; unfold node_of.
    + assert (i / 32 < 32) by (apply Z.div_lt_upper_bound; [lia|]; apply Z.div_small_iff in Hc; lia).
      rewrite Z.mod_small by lia. rewrite js_index_node by lia.
      rewrite lookup_total_app_l by lia. reflexivity.
    + assert (32 <= i / 32).
      { apply Z.div_le_lower_bound; [lia|]. pose proof (Z.div_mod i 1024). pose proof (Z.mod_pos_bound i 1024). lia. }
      replace ((i / 32) mod 32) with (i / 32 - 32).
      2:{ symmetry. rewrite <- (Z.mod_small (i / 32 - 32) 32) by lia.
          rewrite <- Zminus_mod_idemp_r. rewrite Z.mod_same by lia. f_equal. lia. }
      rewrite js_index_node by lia. rewrite lookup_total_app_r by lia.
      do 3 f_equal. lia.
Qed.

(** ** Path copying in [set] *)

Lemma js_store_nat {A} `{Inhabited A} (a : list A) (k : Z) (x : A) :
  0 <= k < Z.of_nat (length a) -> js_store a k x = <[Z.to_nat k := x]> a.
Proof.
  intros Hk. unfold js_store. destruct (Z.ltb_spec k 0); [lia|].
  destruct (Nat.ltb_spec (Z.to_nat k) (length a)); [reflexivity | lia].
Qed.

Lemma store_node ls pad k c :
  0 <= k < Z.of_nat (length ls) ->
  js_store ((JArr <$> ls) ++ pad) k (JArr c) = (JArr <$> <[Z.to_nat k := c]> ls) ++ pad.
Proof.
  intros Hk. rewrite js_store_nat by (rewrite length_app, length_fmap; lia).
  rewrite insert_app_l by (rewrite length_fmap; lia).
  rewrite list_fmap_insert. reflexivity.
Qed.

Lemma join_insert (ls : list (list jsval)) (k c : nat) (x : jsval) :
  leaves_ok ls -> (k < length ls)%nat -> (c < 32)%nat ->
  mjoin (<[k := <[c := x]> (ls !!! k)]> ls) = <[(32 * k + c)%nat := x]> (mjoin ls).
Proof.
  intros Hls. revert k. induction Hls as [|a ls Ha Hls IH]; intros k Hk Hc; simpl in *; [lia|].
  destruct k as [|k]; simpl.
  - rewrite insert_app_l by lia. reflexivity.
  - rewrite IH by lia. rewrite insert_app_r_alt by lia. do 2 f_equal. lia.
Qed.

Lemma leaves_ok_insert ls k c :
  leaves_ok ls -> length c = 32%nat -> leaves_ok (<[k := c]> ls).
Proof. intros Hls Hc. apply Forall_insert; assumption. Qed.

Lemma leaves_ok_lookup ls k :
  leaves_ok ls -> (k < length ls)%nat -> length (ls !!! k) = 32%nat.
Proof.
  intros Hls Hk. destruct (lookup_lt_is_Some_2 ls _ Hk) as [c Hc].
  rewrite (list_lookup_total_correct _ _ _ Hc). eapply Forall_lookup_1 in Hls; eauto.
Qed.

Lemma set_loop_0 i x node :
  PVec.set_loop (Z.to_nat 0) 0 i x node = Ok (js_store node (js_and i MASK) x).
Proof. reflexivity. Qed.
Lemma set_loop_5 i x node :
  PVec.set_loop (Z.to_nat 5) 5 i x node =
  (child ← js_spread (js_index node (js_and (js_ushr i 5) MASK));
   Ok (js_store node (js_and (js_ushr i 5) MASK)
         (JArr (js_store child (js_and i MASK) x)))).
Proof. reflexivity. Qed.
Lemma set_loop_10 i x node :
  PVec.set_loop (Z.to_nat 10) 10 i x node =
  (child ← js_spread (js_index node (js_and (js_ushr i 10) MASK));
   child' ← (leaf ← js_spread (js_index child (js_and (js_ushr i 5) MASK));
             Ok (js_store child (js_and (js_ushr i 5) MASK)
                   (JArr (js_store leaf (js_and i MASK) x))));
   Ok (js_store node (js_and (js_ushr i 10) MASK) (JArr child'))).
Proof. reflexivity. Qed.

Lemma index_bits i :
  0 <= i < two31 ->
  js_and i MASK = i mod 32 /\
  js_and (js_ushr i 5) MASK = (i / 32) mod 32 /\
  js_and (js_ushr i 10) MASK = (i / 1024) mod 32.
Proof.
  intros Hi. unfold two31 in Hi.
  assert (0 <= i / 32 < two31).
  { unfold two31. split; [apply Z.div_pos; lia | apply Z.div_lt_upper_bound; lia]. }
  assert (0 <= i / 1024 < two31).
  { unfold two31. split; [apply Z.div_pos; lia | apply Z.div_lt_upper_bound; lia]. }
  rewrite !js_ushr_small by (unfold two32; lia).
  change (2 ^ 5) with 32. change (2 ^ 10) with 1024.
  rewrite !js_and_MASK by (unfold two31 in *; lia). split_and!; reflexivity.
Qed.

(** coordinates of an index below 2048: leaf number and its two digits *)
Lemma leaf_coords i n :
  0 <= i < 32 * n -> 0 <= i / 32 < n.
Proof. intros. split; [apply Z.div_pos; lia | apply Z.div_lt_upper_bound; lia]. Qed.

Lemma digits_low i :
  0 <= i -> i / 1024 = 0 -> (i / 32) mod 32 = i / 32 /\ i / 32 < 32.
Proof.
  intros Hi H0. apply Z.div_small_iff in H0; [|lia].
  assert (0 <= i / 32 < 32) by (apply leaf_coords; lia).
  split; [apply Z.mod_small|]; lia.
Qed.

Lemma digits_high i :
  0 <= i -> i / 1024 = 1 -> (i / 32) mod 32 = i / 32 - 32 /\ 32 <= i / 32 < 64.
Proof.
  intros Hi H1.
  pose proof (Z.div_mod i 1024). pose proof (Z.mod_pos_bound i 1024).
  assert (32 <= i / 32) by (apply Z.div_le_lower_bound; lia).
  assert (i / 32 < 64) by (apply Z.div_lt_upper_bound; lia).
  split; [|lia].
  rewrite <- (Z.mod_small (i / 32 - 32) 32) by lia.
  rewrite <- Zminus_mod_idemp_r. rewrite Z.mod_same by lia. f_equal. lia.
Qed.

Lemma set_shape s root ls i x :
  trie_shape s root ls -> leaves_ok ls ->
  0 <= i < 32 * Z.of_nat (length ls) ->
  exists r',
    (newRoot ← js_spread root; PVec.set_loop (Z.to_nat s) s i x newRoot) = Ok r' /\
    trie_shape s (JArr r')
      (<[Z.to_nat (i / 32) := <[Z.to_nat (i mod 32) := x]> (ls !!! Z.to_nat (i / 32))]> ls).
Proof.
  intros Hs Hls Hi.
  pose proof (leaf_coords _ _ Hi) as Hk.
  pose proof (Z.mod_pos_bound i 32 ltac:(lia)) as Hc.
  assert (Hlk : length (ls !!! Z.to_nat (i / 32)) = 32%nat)
    by (apply leaves_ok_lookup; [assumption | lia]).
  destruct Hs as [|c|ls pad Hn Hp Hu|ls0 ls1 pad H0 H1 Hp Hu].
  - simpl in Hi. lia.
  - simpl in Hk. replace (i / 32) with 0 in * by lia. simpl in *.
    destruct (index_bits i ltac:(unfold two31; lia)) as (-> & _ & _).
    rewrite js_store_nat by lia.
    eexists; split; [reflexivity|]. constructor.
  - unfold node_of. simpl js_spread. rewrite bind_Ok, set_loop_5.
    destruct (index_bits i ltac:(unfold two31; lia)) as (-> & -> & _).
    rewrite (Z.mod_small (i / 32)) by lia.
    rewrite js_index_node by lia. simpl js_spread. rewrite bind_Ok.
    rewrite (js_store_nat (ls !!! _)) by lia.
    rewrite store_node by lia.
    eexists; split; [reflexivity|].
    apply (shape_flat (<[_ := _]> ls) pad); rewrite ?length_insert; assumption.
  - rewrite length_app in Hi, Hk.
    simpl js_spread. rewrite bind_Ok, set_loop_10.
    destruct (index_bits i ltac:(unfold two31; lia)) as (-> & -> & ->).
    assert (0 <= i / 1024 < 2)
      by (split; [apply Z.div_pos; lia | apply Z.div_lt_upper_bound; lia]).
    rewrite (Z.mod_small (i / 1024)) by lia.
    assert (Hc2 : i / 1024 = 0 \/ i / 1024 = 1) by lia.
    destruct Hc2 as [Hc2|Hc2]; rewrite Hc2.
    + destruct (digits_low i ltac:(lia) Hc2) as [-> ?].
      change (js_index (node_of ls0 [] :: _) 0) with (node_of ls0 []).
      unfold node_of at 1. simpl js_spread. rewrite bind_Ok.
      rewrite js_index_node by lia. simpl js_spread. rewrite bind_Ok.
      rewrite lookup_total_app_l in Hlk |- * by lia.
      rewrite (js_store_nat (ls0 !!! _)) by lia.
      rewrite store_node by lia. rewrite bind_Ok.
      eexists; split; [reflexivity|].
      rewrite insert_app_l by lia.
      apply (shape_deep (<[_ := _]> ls0) ls1 pad); rewrite ?length_insert; assumption.
    + destruct (digits_high i ltac:(lia) Hc2) as [-> ?].
      change (js_index (_ :: node_of ls1 pad :: _) 1) with (node_of ls1 pad).
      unfold node_of at 2. simpl js_spread. rewrite bind_Ok.
      rewrite js_index_node by lia. simpl js_spread. rewrite bind_Ok.
      rewrite lookup_total_app_r in Hlk |- * by lia.
      replace (Z.to_nat (i / 32) - length ls0)%nat with (Z.to_nat (i / 32 - 32)) in * by lia.
      rewrite (js_store_nat (ls1 !!! _)) by lia.
      rewrite store_node by lia. rewrite bind_Ok.
      eexists; split; [reflexivity|].
      rewrite insert_app_r_alt by lia.
      replace (Z.to_nat (i / 32) - length ls0)%nat with (Z.to_nat (i / 32 - 32)) by lia.
      apply (shape_deep ls0 (<[_ := _]> ls1) pad); rewrite ?length_insert; assumption.
Qed.

(** ** [get] and [set] on well-formed snapshots *)

Ltac zdm := Z.div_mod_to_equations; lia.

Lemma shape_leaves_bound s r ls : trie_shape s r ls -> (length ls <= 64)%nat.
Proof. destruct 1; rewrite ?length_app; simpl; lia. Qed.

Lemma shape_shift s r ls : trie_shape s r ls -> s = 0 \/ s = 5 \/ s = 10.
Proof. destruct 1; auto. Qed.

(** the numbers of a well-formed snapshot *)
Lemma Rep_numbers (v : PVec.t) ls tl :
  trie_shape (PVec.shift v) (PVec.root v) ls -> leaves_ok ls ->
  PVec.size v = Z.of_nat (length (mjoin ls ++ tl)) ->
  (length tl <= 32)%nat -> (ls <> [] -> tl <> []) ->
  PVec.size v = 32 * Z.of_nat (length ls) + Z.of_nat (length tl) /\
  0 <= PVec.size v <= 2080 /\
  (0 < PVec.size v -> (1 <= length tl)%nat /\ PVec.tailOffset v = 32 * Z.of_nat (length ls)).
Proof.
  intros Hs Hls Hsz Htl Hne.
  apply shape_leaves_bound in Hs.
  rewrite length_app, length_join_leaves in Hsz by assumption.
  split; [lia|]. split; [lia|]. intros Hpos.
  assert (1 <= length tl)%nat.
  { destruct tl; simpl; [|lia]. destruct ls; [simpl in *; lia|]. exfalso. apply Hne; congruence. }
  split; [assumption|].
  unfold PVec.tailOffset. rewrite js_and_not_MASK by (unfold two31; lia).
  zdm.
Qed.

Lemma boundsCheck_ok v i : 0 <= i < PVec.size v -> PVec.boundsCheck v i = Ok tt.
Proof.
  intros Hi. unfold PVec.boundsCheck.
  destruct (Z.geb_spec i (PVec.size v)); [lia|].
  destruct (Z.ltb_spec i 0); [lia|]. reflexivity.
Qed.

Lemma boundsCheck_fail v i :
  i < 0 \/ PVec.size v <= i -> PVec.boundsCheck v i = Throw IndexOutOfRange.
Proof.
  intros Hi. unfold PVec.boundsCheck.
  destruct (Z.geb_spec i (PVec.size v)); [reflexivity|].
  destruct (Z.ltb_spec i 0); [reflexivity|lia].
Qed.

Lemma get_Rep v l i :
  Rep v l -> 0 <= i < PVec.size v -> PVec.get v i = Ok (l !!! Z.to_nat i).
Proof.
  intros [ls tl Hls Hs Ht -> Hsz Htl Hne] Hi.
  destruct (Rep_numbers v ls tl Hs Hls Hsz Htl Hne) as (Hn & Hb & Hpos).
  destruct (Hpos ltac:(lia)) as [Htl1 Hoff].
  unfold PVec.get. rewrite boundsCheck_ok by assumption. rewrite bind_Ok, Hoff.
  pose proof (length_join_leaves ls Hls) as Hj.
  destruct (index_bits i ltac:(unfold two31; lia)) as (Hb0 & _ & _).
  destruct (Z.geb_spec i (32 * Z.of_nat (length ls))) as [Hge|Hlt].
  - rewrite Ht, Hb0. simpl. rewrite js_index_nat by zdm.
    rewrite lookup_total_app_r by lia. do 2 f_equal. zdm.
  - rewrite (descend_shape _ _ _ i Hs) by lia. rewrite bind_Ok, Hb0. simpl.
    rewrite js_index_nat by zdm.
    rewrite lookup_total_app_l by lia.
    rewrite join_lookup_total by (assumption || lia). reflexivity.
Qed.

Lemma set_Rep v l i x :
  Rep v l -> 0 <= i < PVec.size v ->
  exists w, PVec.set v i x = Ok w /\ Rep w (<[Z.to_nat i := x]> l).
Proof.
  intros [ls tl Hls Hs Ht -> Hsz Htl Hne] Hi.
  destruct (Rep_numbers v ls tl Hs Hls Hsz Htl Hne) as (Hn & Hb & Hpos).
  destruct (Hpos ltac:(lia)) as [Htl1 Hoff].
  unfold PVec.set. rewrite boundsCheck_ok by assumption. rewrite bind_Ok, Hoff.
  pose proof (length_join_leaves ls Hls) as Hj.
  destruct (index_bits i ltac:(unfold two31; lia)) as (Hb0 & _ & _).
  destruct (Z.geb_spec i (32 * Z.of_nat (length ls))) as [Hge|Hlt].
  - rewrite Ht, Hb0. simpl js_spread. rewrite bind_Ok.
    rewrite js_store_nat by zdm.
    eexists; split; [reflexivity|].
    apply (Rep_intro _ _ ls (<[Z.to_nat (i mod 32) := x]> tl)); simpl;
      rewrite ?length_insert; try assumption; try reflexivity.
    + rewrite insert_app_r_alt by lia. do 2 f_equal. zdm.
    + intros Hl E. apply (f_equal length) in E. rewrite length_insert in E.
      destruct tl; simpl in *; lia.
  - destruct (set_shape _ _ _ i x Hs Hls ltac:(lia)) as (r' & Hr & Hs').
    destruct (js_spread (PVec.root v)) as [newRoot|] eqn:Hsp; [|discriminate].
    cbn [mbind result_bind] in Hr |- *. rewrite Hr. cbn [mbind result_bind].
    eexists; split; [reflexivity|].
    assert (Hk : (Z.to_nat (i / 32) < length ls)%nat) by zdm.
    assert (Hls' : leaves_ok (<[Z.to_nat (i / 32) := <[Z.to_nat (i mod 32) := x]>
                                 (ls !!! Z.to_nat (i / 32))]> ls)).
    { apply leaves_ok_insert; [assumption|]. rewrite length_insert.
      apply leaves_ok_lookup; assumption. }
    set (ls' := <[Z.to_nat (i / 32) := _]> ls) in *.
    apply (Rep_intro _ _ ls' tl); simpl; try assumption; subst ls'.
    + rewrite join_insert by (assumption || zdm).
      rewrite insert_app_l by lia. do 2 f_equal. zdm.
    + rewrite length_insert. assumption.
    + intros _. apply Hne. intros ->. simpl in Hk. lia.
Qed.

(** ** [push] keeps snapshots well formed *)

Lemma tailSize_Rep (v : PVec.t) (ls : list (list jsval)) (tl : list jsval) :
  PVec.size v = 32 * Z.of_nat (length ls) + Z.of_nat (length tl) ->
  (length ls <= 64)%nat -> (length tl <= 32)%nat -> (ls <> [] -> tl <> []) ->
  PVec.tailSize v = Z.of_nat (length tl).
Proof.
  intros Hsz Hls Htl Hne. unfold PVec.tailSize.
  destruct (Z.eqb_spec (PVec.size v) 0) as [E|E].
  - destruct tl; [reflexivity | simpl in *; lia].
  - assert (1 <= length tl)%nat.
    { destruct tl; simpl; [|lia]. destruct ls; [simpl in *; lia|]. exfalso. apply Hne; congruence. }
    rewrite js_and_MASK by (unfold two31; lia). zdm.
Qed.

Lemma newPath_0 tl : PVec.newPath 0 tl = Ok tl.
Proof. reflexivity. Qed.
Lemma newPath_5 tl :
  PVec.newPath 5 (JArr tl) = Ok (node_of [tl] (replicate 31 JUndef)).
Proof. reflexivity. Qed.

Lemma pushLeaf_loop_5 i tl node :
  PVec.pushLeaf_loop (Z.to_nat 5) 5 i tl node =
  Ok (js_store node (js_and (js_ushr i 5) MASK) tl).
Proof. reflexivity. Qed.
Lemma pushLeaf_loop_10 i tl node :
  PVec.pushLeaf_loop (Z.to_nat 10) 10 i tl node =
  let subidx := js_and (js_ushr i 10) MASK in
  let child := js_index node subidx in
  if PVec.is_null child then
    path ← PVec.newPath 5 tl; Ok (js_store node subidx path)
  else
    child ← js_spread child;
    Ok (js_store node subidx (JArr (js_store child (js_and (js_ushr i 5) MASK) tl))).
Proof.
  change (Z.to_nat 10) with 10%nat. cbn [PVec.pushLeaf_loop].
  change (10 >? SHIFT) with true. change (10 - SHIFT) with 5. cbv zeta.
  destruct (PVec.is_null _); [reflexivity|].
  destruct (js_spread _) as [c|]; reflexivity.
Qed.

(** filling the first unused slot of a node *)
Lemma store_next_leaf ls pad c :
  (length ls + length pad = 32)%nat -> (length ls < 32)%nat ->
  exists pad', pad = (pad !!! 0%nat) :: pad' /\
    js_store ((JArr <$> ls) ++ pad) (Z.of_nat (length ls)) (JArr c) =
    (JArr <$> (ls ++ [c])) ++ pad'.
Proof.
  intros Hp Hlt. destruct pad as [|p pad']; [simpl in *; lia|].
  exists pad'. split; [reflexivity|].
  rewrite js_store_nat by (rewrite length_app, length_fmap; simpl; lia).
  rewrite Nat2Z.id. rewrite insert_app_r_alt by (rewrite length_fmap; lia).
  rewrite length_fmap, Nat.sub_diag. simpl.
  rewrite fmap_app. simpl. rewrite <- app_assoc. reflexivity.
Qed.

Lemma unused_tail p pad : unused (p :: pad) -> unused pad.
Proof. intros H. inversion H; assumption. Qed.

Ltac rep_intro ls' tl' :=
  apply (Rep_intro _ _ ls' tl'); cbn [PVec.size PVec.shift PVec.root PVec.tail].

Lemma leaves_ok_snoc ls c : leaves_ok ls -> length c = 32%nat -> leaves_ok (ls ++ [c]).
Proof. intros. apply Forall_app; split; [assumption | repeat constructor; assumption]. Qed.

Lemma join_snoc (ls : list (list jsval)) c : mjoin (ls ++ [c]) = mjoin ls ++ c.
Proof. rewrite join_app. simpl. rewrite app_nil_r. reflexivity. Qed.

Lemma unused_undef n : unused (replicate n JUndef).
Proof. apply Forall_replicate. auto. Qed.

Lemma shape_nil s r : trie_shape s r [] -> s = 0 /\ r = JArr [].
Proof.
  intros H. remember [] as ls eqn:E. destruct H as [|c|ls pad Hn|ls0 ls1 pad H0 H1].
  - auto.
  - discriminate.
  - subst ls. simpl in Hn. lia.
  - destruct ls0; [simpl in H0; lia | discriminate].
Qed.

Lemma push_room v l x :
  Rep v l -> PVec.size v <> 2080 ->
  exists w, PVec.push v x = Ok w /\ Rep w (l ++ [x]).
Proof.
  intros [ls tl Hls Hs Ht -> Hsz Htl Hne] Hfull.
  destruct (Rep_numbers v ls tl Hs Hls Hsz Htl Hne) as (Hn & Hb & Hpos).
  pose proof (shape_leaves_bound _ _ _ Hs) as Hlb.
  pose proof (tailSize_Rep v ls tl Hn Hlb Htl Hne) as Hts.
  clear Hpos Hsz.
  destruct v as [sz sh rt tlv]. simpl in *. subst tlv.
  unfold PVec.push. cbv zeta. rewrite Hts. cbn [PVec.tail PVec.size PVec.shift PVec.root].
  change BRANCHING_FACTOR with 32.
  destruct (Z.eqb_spec (Z.of_nat (length tl)) 32) as [Efull|Eroom]; cbn [negb].
  2:{ simpl js_spread. cbn [mbind result_bind].
      eexists; split; [reflexivity|].
      rep_intro ls (tl ++ [x]).
      - assumption.
      - assumption.
      - reflexivity.
      - rewrite app_assoc. reflexivity.
      - rewrite !length_app, length_join_leaves by assumption. simpl. lia.
      - rewrite length_app. simpl. lia.
      - intros _. destruct tl; discriminate. }
  assert (Htl32 : length tl = 32%nat) by lia.
  destruct (Z.eqb_spec sz 32) as [E32|N32].
  { assert (ls = []) by (destruct ls; [reflexivity | simpl in *; lia]). subst ls.
    destruct (shape_nil _ _ Hs) as [-> ->].
    eexists; split; [reflexivity|].
    rep_intro [tl] [x].
    - apply (leaves_ok_snoc []); assumption.
    - constructor.
    - reflexivity.
    - simpl. rewrite app_nil_r. reflexivity.
    - rewrite !length_app. simpl. lia.
    - simpl. lia.
    - discriminate. }
  rewrite js_ushr_small by (unfold two32, SHIFT; lia). change (2 ^ SHIFT) with 32.
  assert (Hq : sz / 32 = Z.of_nat (length ls) + 1) by zdm.
  rewrite Hq.
  destruct Hs as [|c|ls pad Hn2 Hp Hu|ls0 ls1 pad H0 H1 Hp Hu].
  - simpl in *. lia.
  - (* one leaf: the trie grows to height two *)
    change (js_shl 1 0) with 1. simpl length.
    change (Z.of_nat 1 + 1 >? 1) with true. cbv iota.
    rewrite newPath_0. cbn [mbind result_bind].
    eexists; split; [reflexivity|].
    rep_intro [c; tl] [x].
    + apply (leaves_ok_snoc [c]); assumption.
    + apply (shape_flat [c; tl] (replicate 30 JUndef)); simpl; try lia.
      apply (unused_undef 30).
    + reflexivity.
    + simpl. rewrite !app_nil_r. reflexivity.
    + rewrite !length_app, length_join_leaves by assumption. simpl in *. lia.
    + simpl. lia.
    + discriminate.
  - change (js_shl 1 5) with 32.
    destruct (Z.gtb_spec (Z.of_nat (length ls) + 1) 32) as [Hgrow|Hfits].
    + (* 32 leaves: the trie grows to height three *)
      assert (length ls = 32%nat) by lia.
      assert (pad = []) by (destruct pad; [reflexivity | simpl in *; lia]). subst pad.
      rewrite newPath_5. cbn [mbind result_bind].
      eexists; split; [reflexivity|].
      rep_intro (ls ++ [tl]) [x].
      * apply leaves_ok_snoc; assumption.
      * apply (shape_deep ls [tl] (replicate 31 JUndef)); simpl; try lia.
        apply (unused_undef 31).
      * reflexivity.
      * rewrite join_snoc. reflexivity.
      * rewrite !length_app, length_join_leaves by assumption. simpl. lia.
      * simpl. lia.
      * discriminate.
    + unfold PVec.pushLeaf, node_of. simpl js_spread. cbn [mbind result_bind].
      rewrite pushLeaf_loop_5.
      destruct (index_bits (sz - 1) ltac:(unfold two31; lia)) as (_ & -> & _).
      replace (((sz - 1) / 32) mod 32) with (Z.of_nat (length ls)) by zdm.
      destruct (store_next_leaf ls pad tl Hp ltac:(lia)) as (pad' & Epad & ->).
      cbn [mbind result_bind].
      eexists; split; [reflexivity|].
      rep_intro (ls ++ [tl]) [x].
      * apply leaves_ok_snoc; assumption.
      * rewrite Epad in Hp, Hu. simpl in Hp.
        apply (shape_flat (ls ++ [tl]) pad'); rewrite ?length_app; simpl; try lia.
        eapply unused_tail; eassumption.
      * reflexivity.
      * rewrite join_snoc. reflexivity.
      * rewrite !length_app, length_join_leaves by assumption. simpl. lia.
      * simpl. lia.
      * discriminate.
  - change (js_shl 1 10) with 1024. rewrite length_app in *.
    destruct (Z.gtb_spec (Z.of_nat (length ls0 + length ls1) + 1) 1024) as [Hgrow|Hfits]; [lia|].
    unfold PVec.pushLeaf. simpl js_spread. cbn [mbind result_bind].
    rewrite pushLeaf_loop_10. cbv zeta.
    destruct (index_bits (sz - 1) ltac:(unfold two31; lia)) as (_ & -> & ->).
    replace (((sz - 1) / 1024) mod 32) with 1 by zdm.
    change (js_index (_ :: node_of ls1 pad :: _) 1) with (node_of ls1 pad).
    change (PVec.is_null (node_of ls1 pad)) with false. cbv iota.
    change (js_spread (node_of ls1 pad)) with (Ok ((JArr <$> ls1) ++ pad)).
    cbn [mbind result_bind].
    replace (((sz - 1) / 32) mod 32) with (Z.of_nat (length ls1)) by zdm.
    destruct (store_next_leaf ls1 pad tl Hp ltac:(lia)) as (pad' & Epad & ->).
    eexists; split; [reflexivity|].
    rep_intro (ls0 ++ (ls1 ++ [tl])) [x].
    + rewrite app_assoc. apply leaves_ok_snoc; assumption.
    + rewrite Epad in Hp, Hu. simpl in Hp.
      apply (shape_deep ls0 (ls1 ++ [tl]) pad'); rewrite ?length_app; simpl; try lia.
      eapply unused_tail; eassumption.
    + reflexivity.
    + rewrite app_assoc, join_snoc. reflexivity.
    + rewrite !length_app, length_join_leaves by assumption.
      rewrite !length_app. simpl. lia.
    + simpl. lia.
    + discriminate.
Qed.

(** ** [push] on a full trie *)

Lemma push_full v l x :
  Rep v l -> PVec.size v = 2080 -> PVec.push v x = Throw TypeError.
Proof.
  intros [ls tl Hls Hs Ht -> Hsz Htl Hne] Hfull.
  destruct (Rep_numbers v ls tl Hs Hls Hsz Htl Hne) as (Hn & Hb & Hpos).
  pose proof (shape_leaves_bound _ _ _ Hs) as Hlb.
  pose proof (tailSize_Rep v ls tl Hn Hlb Htl Hne) as Hts.
  clear Hpos Hsz.
  destruct v as [sz sh rt tlv]. simpl in *. subst tlv sz.
  assert (length ls = 64%nat /\ length tl = 32%nat) as [H64 H32] by lia.
  unfold PVec.push. cbv zeta. rewrite Hts, H32. cbn [PVec.tail PVec.size PVec.shift PVec.root].
  change (negb (Z.of_nat 32 =? BRANCHING_FACTOR)) with false. cbv iota.
  change (2080 =? BRANCHING_FACTOR) with false. cbv iota.
  change (js_ushr 2080 SHIFT) with 65. change (2080 - 1) with 2079.
  destruct Hs as [|c|ls pad Hn2 Hp Hu|ls0 ls1 pad H0 H1 Hp Hu]; try (simpl in *; lia).
  change (65 >? js_shl 1 10) with false. cbv iota.
  unfold PVec.pushLeaf. simpl js_spread. cbn [mbind result_bind].
  rewrite pushLeaf_loop_10. reflexivity.
Qed.

Lemma init_snoc l x : init (l ++ [x]) = l.
Proof.
  unfold init. rewrite length_app. simpl.
  replace (length l + 1 - 1)%nat with (length l) by lia.
  rewrite take_app_length. reflexivity.
Qed.

Lemma snoc_inv {A} (l : list A) : l <> [] -> exists l' x, l = l' ++ [x].
Proof. destruct l as [|x l' _] using rev_ind; [congruence | eauto]. Qed.

(** ** [pop] keeps snapshots well formed *)

Lemma diverges_table : forallb diverges_ok (seq 1 63) = true.
Proof. vm_compute. reflexivity. Qed.

Lemma diverges_facts m :
  (1 <= m < 64)%nat ->
  let diverges := js_xor (32 * Z.of_nat m) (32 * Z.of_nat m - 1) in
  js_ushr diverges 5 <> 0 /\
  ((m mod 32)%nat <> 0%nat -> js_ushr diverges 10 = 0) /\
  (js_ushr diverges 10 <> 0 -> js_ushr diverges 15 = 0).
Proof.
  intros Hm. pose proof diverges_table as Ht.
  rewrite forallb_forall in Ht. specialize (Ht m).
  rewrite in_seq in Ht. specialize (Ht ltac:(lia)).
  unfold diverges_ok in Ht. cbv zeta in *.
  apply andb_prop in Ht as [Ht H3]. apply andb_prop in Ht as [H1 H2].
  split_and!.
  - intros E. rewrite E in H1. discriminate.
  - intros Hmod. apply orb_prop in H2 as [H2|H2].
    + apply Nat.eqb_eq in H2. contradiction.
    + apply Z.eqb_eq in H2. exact H2.
  - intros Hne. apply orb_prop in H3 as [H3|H3]; apply Z.eqb_eq in H3; [contradiction | exact H3].
Qed.

Lemma popTrie_loop_5 n d node :
  PVec.popTrie_loop (Z.to_nat 5) 5 n d node =
  let subIndex := js_and (js_ushr n 5) MASK in
  let child := js_index node subIndex in
  if negb (js_ushr d 5 =? 0) then Ok (js_store node subIndex JNull, child)
  else
    child ← js_spread child;
    Ok (js_store node subIndex (JArr child), JArr child).
Proof.
  change (Z.to_nat 5) with 5%nat. cbn [PVec.popTrie_loop].
  change (5 >? 0) with true. change (5 - SHIFT) with 0. cbv zeta iota.
  destruct (negb _); [reflexivity|].
  destruct (js_spread _); reflexivity.
Qed.

Lemma popTrie_loop_10 n d node :
  PVec.popTrie_loop (Z.to_nat 10) 10 n d node =
  let subIndex := js_and (js_ushr n 10) MASK in
  let child := js_index node subIndex in
  if negb (js_ushr d 10 =? 0) then
    last ← PVec.descend n 5 child; Ok (js_store node subIndex JNull, last)
  else
    child ← js_spread child;
    r ← PVec.popTrie_loop (Z.to_nat 5) 5 n d child;
    Ok (js_store node subIndex (JArr r.1), r.2).
Proof.
  change (Z.to_nat 10) with 10%nat. cbn [PVec.popTrie_loop].
  change (10 >? 0) with true. change (10 - SHIFT) with 5. cbv zeta iota.
  destruct (negb _).
  - rewrite for_down_5. reflexivity.
  - destruct (js_spread _) as [c|]; [|reflexivity]. cbn [mbind result_bind].
    change (Z.to_nat 5) with 5%nat. cbn [PVec.popTrie_loop].
    change (5 >? 0) with true. change (5 - SHIFT) with 0. cbv iota zeta.
    destruct (negb _); [reflexivity|].
    destruct (js_spread _); reflexivity.
Qed.

Lemma js_get_0 a r : js_get (JArr (a :: r)) 0 = Ok a.
Proof. reflexivity. Qed.
Lemma js_get_1 a b r : js_get (JArr (a :: b :: r)) 1 = Ok b.
Proof. reflexivity. Qed.

Lemma index_last_leaf ls c pad :
  js_index ((JArr <$> (ls ++ [c])) ++ pad) (Z.of_nat (length ls)) = JArr c.
Proof.
  rewrite js_index_node by (rewrite length_app; simpl; lia).
  rewrite Nat2Z.id. rewrite lookup_total_app_r by lia.
  rewrite Nat.sub_diag. reflexivity.
Qed.

Lemma unlink_last_leaf ls c pad :
  js_store ((JArr <$> (ls ++ [c])) ++ pad) (Z.of_nat (length ls)) JNull =
  (JArr <$> ls) ++ JNull :: pad.
Proof.
  rewrite js_store_nat by (rewrite length_app, length_fmap, length_app; simpl; lia).
  rewrite Nat2Z.id, fmap_app, <- app_assoc.
  rewrite insert_app_r_alt by (rewrite length_fmap; lia).
  rewrite length_fmap, Nat.sub_diag. reflexivity.
Qed.

Lemma pop_Rep v l :
  Rep v l -> 0 < PVec.size v ->
  exists w, PVec.pop v = Ok w /\ Rep w (init l).
Proof.
  intros [ls tl Hls Hs Ht -> Hsz Htl Hne] Hpos0.
  destruct (Rep_numbers v ls tl Hs Hls Hsz Htl Hne) as (Hn & Hb & Hpos).
  destruct (Hpos Hpos0) as [Htl1 _]. clear Hpos Hsz.
  pose proof (length_join_leaves ls Hls) as Hj.
  destruct v as [sz sh rt tlv]. simpl in *. subst tlv.
  unfold PVec.pop. cbn [PVec.tail PVec.size PVec.shift PVec.root].
  destruct (Z.eqb_spec sz 0) as [|_]; [lia|].
  destruct (Z.eqb_spec sz 1) as [E1|N1].
  { assert (ls = []) by (destruct ls; [reflexivity | simpl in *; lia]). subst ls.
    destruct tl as [|a [|b tl]]; simpl in *; try lia.
    eexists; split; [reflexivity|].
    rep_intro (@nil (list jsval)) (@nil jsval).
    - constructor.
    - constructor.
    - reflexivity.
    - reflexivity.
    - reflexivity.
    - simpl. lia.
    - intros H; exfalso; apply H; reflexivity. }
  rewrite js_and_MASK by (unfold two31; lia).
  destruct (Z.gtb_spec ((sz - 1) mod 32) 0) as [Hmany|Hone].
  { (* the tail keeps an element *)
    simpl js_slice_init. cbn [mbind result_bind].
    eexists; split; [reflexivity|].
    rep_intro ls (take (length tl - 1) tl).
    - assumption.
    - assumption.
    - reflexivity.
    - unfold init. rewrite length_app, take_app_ge by lia. do 2 f_equal. lia.
    - unfold init. rewrite length_take. rewrite length_app, Hj. lia.
    - rewrite length_take. lia.
    - intros _ E. apply (f_equal length) in E. rewrite length_take in E.
      simpl in E. assert (2 <= length tl)%nat by zdm. lia. }
  (* the tail had one element: the last leaf becomes the tail *)
  assert (Ht1 : length tl = 1%nat) by zdm.
  destruct tl as [|a [|b tl]]; simpl in Ht1; try lia. clear Ht1 Htl1 Htl.
  rewrite init_snoc. simpl in Hn.
  unfold LOWER_BOUND.
  destruct Hs as [|c|ls pad Hn2 Hp Hu|ls0 ls1 pad H0 H1 Hp Hu].
  - simpl in *. lia.
  - simpl in Hn. subst sz. simpl.
    eexists; split; [reflexivity|].
    inversion Hls; subst.
    rep_intro (@nil (list jsval)) c.
    + constructor.
    + constructor.
    + reflexivity.
    + simpl. rewrite app_nil_r. reflexivity.
    + simpl. rewrite app_nil_r. change BRANCHING_FACTOR with 32. lia.
    + lia.
    + intros H; exfalso; apply H; reflexivity.
  - destruct (snoc_inv ls ltac:(intros ->; simpl in *; lia)) as (ls' & c & ->).
    rewrite length_app in *. simpl in *.
    apply Forall_app in Hls as [Hls' Hc].
    assert (Hc32 : length c = 32%nat) by (inversion Hc; assumption). clear Hc.
    rewrite join_snoc.
    destruct (Z.eqb_spec (sz - 33) 0) as [|_]; [lia|].
    change (js_shl 1 5) with 32.
    destruct (Z.eqb_spec (sz - 33) 32) as [Elow|Epop].
    + (* two leaves: the trie shrinks to one leaf *)
      destruct ls' as [|c0 [|c1 ls']]; simpl in *; try lia.
      eexists; split; [reflexivity|].
      rep_intro [c0] c.
      * assumption.
      * constructor.
      * reflexivity.
      * reflexivity.
      * rewrite length_app. simpl. rewrite app_nil_r.
        assert (length c0 = 32%nat) by (inversion Hls'; assumption). lia.
      * lia.
      * intros _ ->. simpl in Hc32. lia.
    + unfold PVec.popTrie. cbn [PVec.tail PVec.size PVec.shift PVec.root].
      unfold node_of, LOWER_BOUND. simpl js_spread. cbn [mbind result_bind].
      rewrite popTrie_loop_5. cbv zeta.
      destruct (index_bits (sz - 33) ltac:(unfold two31; lia)) as (_ & -> & _).
      replace (((sz - 33) / 32) mod 32) with (Z.of_nat (length ls')) by zdm.
      replace (sz - 33) with (32 * Z.of_nat (length ls')) by lia.
      destruct (diverges_facts (length ls') ltac:(lia)) as (Hd5 & _ & _).
      cbv zeta in Hd5. apply Z.eqb_neq in Hd5. rewrite Hd5. cbn [negb].
      rewrite index_last_leaf, unlink_last_leaf. cbn [mbind result_bind fst snd].
      eexists; split; [reflexivity|].
      rep_intro ls' c.
      * assumption.
      * apply (shape_flat ls' (JNull :: pad)); simpl; try lia.
        constructor; [right; reflexivity | assumption].
      * reflexivity.
      * reflexivity.
      * rewrite length_app, length_join_leaves by assumption. lia.
      * lia.
      * intros _ ->. simpl in Hc32. lia.
  - destruct (snoc_inv ls1 ltac:(intros ->; simpl in *; lia)) as (ls' & c & ->).
    rewrite !length_app in *. simpl in *.
    apply Forall_app in Hls as [Hls0 Hls1].
    apply Forall_app in Hls1 as [Hls' Hc].
    assert (Hc32 : length c = 32%nat) by (inversion Hc; assumption). clear Hc.
    rewrite app_assoc, join_snoc.
    destruct (Z.eqb_spec (sz - 33) 0) as [|_]; [lia|].
    change (js_shl 1 10) with 1024.
    destruct (Z.eqb_spec (sz - 33) 1024) as [Elow|Epop].
    + (* 33 leaves: the trie shrinks to height two *)
      assert (ls' = []) by (destruct ls'; [reflexivity | simpl in *; lia]). subst ls'.
      unfold PVec.lowerTrie. cbn [PVec.tail PVec.size PVec.shift PVec.root].
      cbv zeta. change (10 - SHIFT) with 5. rewrite js_get_0, js_get_1.
      cbn [mbind result_bind]. rewrite for_down_5. unfold node_of at 2.
      cbn [fmap list_fmap app]. rewrite js_get_0. cbn [mbind result_bind].
      eexists; split; [reflexivity|].
      rewrite app_nil_r.
      rep_intro ls0 c.
      * assumption.
      * apply (shape_flat ls0 []); simpl; try lia. constructor.
      * reflexivity.
      * reflexivity.
      * rewrite length_app, length_join_leaves by assumption. simpl in *. lia.
      * lia.
      * intros _ ->. simpl in Hc32. lia.
    + unfold PVec.popTrie. cbn [PVec.tail PVec.size PVec.shift PVec.root].
      unfold LOWER_BOUND. simpl js_spread. cbn [mbind result_bind].
      rewrite popTrie_loop_10. cbv zeta.
      destruct (index_bits (sz - 33) ltac:(unfold two31; lia)) as (_ & Hb5 & ->).
      replace (((sz - 33) / 1024) mod 32) with 1 by zdm.
      replace (sz - 33) with (32 * Z.of_nat (32 + length ls')) in * by lia.
      destruct (diverges_facts (32 + length ls') ltac:(lia)) as (Hd5 & Hd10 & _).
      cbv zeta in Hd5, Hd10.
      rewrite Hd10 by (rewrite Nat.Div0.add_mod, Nat.Div0.mod_same, Nat.add_0_l, Nat.Div0.mod_mod, Nat.mod_small; lia).
      cbn [Z.eqb negb].
      change (js_index (_ :: ?n1 :: _) 1) with n1.
      unfold node_of at 2. simpl js_spread. cbn [mbind result_bind].
      rewrite popTrie_loop_5. cbv zeta. rewrite Hb5.
      replace ((32 * Z.of_nat (32 + length ls') / 32) mod 32) with (Z.of_nat (length ls')) by zdm.
      apply Z.eqb_neq in Hd5. rewrite Hd5. cbn [negb].
      rewrite index_last_leaf, unlink_last_leaf. cbn [mbind result_bind fst snd].
      eexists; split; [reflexivity|].
      rep_intro (ls0 ++ ls') c.
      * apply Forall_app; split; assumption.
      * apply (shape_deep ls0 ls' (JNull :: pad)); simpl; try lia.
        constructor; [right; reflexivity | assumption].
      * reflexivity.
      * reflexivity.
      * rewrite length_app, length_join_leaves by (apply Forall_app; split; assumption).
        rewrite length_app. lia.
      * lia.
      * intros _ ->. simpl in Hc32. lia.
Qed.

(** ** Reachable snapshots are well formed *)

Lemma Rep_empty : Rep PVec.empty [].
Proof.
  rep_intro (@nil (list jsval)) (@nil jsval).
  - constructor.
  - constructor.
  - reflexivity.
  - reflexivity.
  - reflexivity.
  - simpl. lia.
  - intros H; exfalso; apply H; reflexivity.
Qed.

Lemma Rep_size v l : Rep v l -> PVec.size v = Z.of_nat (length l) /\ 0 <= PVec.size v <= 2080.
Proof.
  intros [ls tl Hls Hs Ht -> Hsz Htl Hne].
  destruct (Rep_numbers v ls tl Hs Hls Hsz Htl Hne) as (Hn & Hb & Hpos). auto.
Qed.

Lemma push_Rep v l x w : Rep v l -> PVec.push v x = Ok w -> Rep w (l ++ [x]).
Proof.
  intros HR Hp. destruct (decide (PVec.size v = 2080)) as [E|E].
  - rewrite (push_full v l x HR E) in Hp. discriminate.
  - destruct (push_room v l x HR E) as (w' & Hw & HR'). congruence.
Qed.

Lemma set_ok_inv v i x w : PVec.set v i x = Ok w -> 0 <= i < PVec.size v.
Proof.
  unfold PVec.set, PVec.boundsCheck. intros H.
  destruct (Z.geb_spec i (PVec.size v)); [discriminate|].
  destruct (Z.ltb_spec i 0); [discriminate|]. lia.
Qed.

Lemma pop_ok_inv v w : PVec.pop v = Ok w -> PVec.size v <> 0.
Proof.
  unfold PVec.pop. intros H E. rewrite E in H. discriminate.
Qed.

Lemma reachable_Rep v : reachable v -> exists l, Rep v l.
Proof.
  induction 1 as [|v x w _ [l HR] Hp|v i x w _ [l HR] Hs|v w _ [l HR] Hp].
  - exists []. apply Rep_empty.
  - exists (l ++ [x]). eapply push_Rep; eassumption.
  - pose proof (set_ok_inv _ _ _ _ Hs) as Hi.
    destruct (set_Rep v l i x HR Hi) as (w' & Hw & HR').
    exists (<[Z.to_nat i := x]> l). congruence.
  - pose proof (pop_ok_inv _ _ Hp) as Hn.
    destruct (Rep_size v l HR) as [_ Hb].
    destruct (pop_Rep v l HR ltac:(lia)) as (w' & Hw & HR').
    exists (init l). congruence.
Qed.

(** ** The cursor inside a leaf *)

Lemma next_in_leaf it c :
  PVecIterator.leaf it = JArr c ->
  0 <= PVecIterator.index it < PVecIterator.size it -> PVecIterator.index it < two31 ->
  PVecIterator.index it <> PVecIterator.jump it ->
  PVecIterator.next it =
  Ok (Some (c !!! Z.to_nat (PVecIterator.index it mod 32)), at_index it (PVecIterator.index it + 1)).
Proof.
  intros Hl Hi Hb Hj. unfold PVecIterator.next.
  destruct (Z.eqb_spec (PVecIterator.index it) (PVecIterator.size it)); [lia|].
  destruct (Z.eqb_spec (PVecIterator.index it) (PVecIterator.jump it)); [lia|].
  cbn [mbind result_bind]. rewrite Hl.
  rewrite js_and_MASK by lia. simpl js_get.
  rewrite js_index_nat by (apply Z.mod_pos_bound; lia).
  unfold at_index. rewrite Hl. reflexivity.
Qed.

Lemma next_done it : PVecIterator.index it = PVecIterator.size it -> PVecIterator.next it = Ok (None, it).
Proof. intros E. unfold PVecIterator.next. rewrite E, Z.eqb_refl. reflexivity. Qed.

Lemma drain_done fuel it : PVecIterator.index it = PVecIterator.size it -> PVecIterator.drain fuel it = Ok [].
Proof. intros E. destruct fuel; simpl; rewrite (next_done it E); reflexivity. Qed.

(** reading [m] elements without leaving the current leaf *)
Lemma drain_in_leaf m : forall it c q r fuel,
  PVecIterator.leaf it = JArr c ->
  0 <= q -> PVecIterator.index it = 32 * q + Z.of_nat r ->
  PVecIterator.index it + Z.of_nat m <= PVecIterator.size it -> PVecIterator.size it < two31 ->
  (r + m <= length c)%nat -> (r + m <= 32)%nat ->
  (PVecIterator.jump it < PVecIterator.index it \/ PVecIterator.index it + Z.of_nat m <= PVecIterator.jump it) ->
  PVecIterator.drain (m + fuel) it =
  (rest ← PVecIterator.drain fuel (at_index it (PVecIterator.index it + Z.of_nat m));
   Ok (take m (drop r c) ++ rest)).
Proof.
  induction m as [|m IH]; intros it c q r fuel Hl Hq Hi Him Hb Hc H32 Hj.
  - change (Z.of_nat 0) with 0. rewrite Z.add_0_r.
    replace (at_index it (PVecIterator.index it)) with it by (destruct it; reflexivity).
    change (0 + fuel)%nat with fuel.
    destruct (PVecIterator.drain fuel it); reflexivity.
  - change (S m + fuel)%nat with (S (m + fuel)). cbn [PVecIterator.drain].
    rewrite (next_in_leaf it c Hl) by lia. cbn [mbind result_bind fst snd].
    rewrite (IH (at_index it (PVecIterator.index it + 1)) c q (S r) fuel);
      cbn [at_index PVecIterator.leaf PVecIterator.index PVecIterator.size PVecIterator.jump]; try lia; try assumption.
    replace (PVecIterator.index it + 1 + Z.of_nat m) with (PVecIterator.index it + Z.of_nat (S m)) by lia.
    unfold at_index at 2. cbn [PVecIterator.size PVecIterator.tail PVecIterator.stack PVecIterator.leaf PVecIterator.jump PVecIterator.done].
    fold (at_index it (PVecIterator.index it + Z.of_nat (S m))).
    destruct (PVecIterator.drain fuel _) as [rest|]; [|reflexivity]. cbn [mbind result_bind].
    replace (PVecIterator.index it mod 32) with (Z.of_nat r) by zdm.
    rewrite Nat2Z.id.
    destruct (lookup_lt_is_Some_2 c r ltac:(lia)) as [x Hx].
    rewrite (list_lookup_total_correct _ _ _ Hx).
    rewrite (drop_S _ _ _ Hx). reflexivity.
Qed.

(** ** The cursor at a leaf boundary *)

(** the tail is reached: the rest of the traversal reads the tail *)
Lemma drain_tail sz tl stack leaf d n :
  1 <= n -> 1 <= Z.of_nat (length tl) <= 32 ->
  sz = 32 * n + Z.of_nat (length tl) -> sz < two31 ->
  PVecIterator.drain (length tl) (PVecIterator.mk sz (JArr tl) stack leaf (32 * n) (32 * n) d) = Ok tl.
Proof.
  intros Hn Htl Hsz Hb.
  destruct tl as [|x tl]; [simpl in Htl; lia|].
  change (length (x :: tl)) with (S (length tl)) in *. cbn [PVecIterator.drain].
  unfold PVecIterator.next. cbn [PVecIterator.index PVecIterator.size PVecIterator.jump PVecIterator.tail PVecIterator.stack PVecIterator.leaf PVecIterator.done].
  destruct (Z.eqb_spec (32 * n) sz); [lia|]. rewrite Z.eqb_refl.
  unfold two31 in Hb.
  rewrite js_and_not_MASK by (unfold two31; lia).
  destruct (Z.geb_spec (32 * n) (32 * ((sz - 1) / 32))) as [_|Hlt]; [|zdm].
  cbn [mbind result_bind PVecIterator.index PVecIterator.size PVecIterator.jump PVecIterator.tail PVecIterator.stack PVecIterator.leaf PVecIterator.done].
  rewrite js_and_MASK by (unfold two31; lia).
  replace ((32 * n) mod 32) with 0 by zdm.
  cbn [js_get mbind result_bind fst snd]. change (js_index (x :: tl) 0) with x.
  pose proof (drain_in_leaf (length tl)
    (PVecIterator.mk sz (JArr (x :: tl)) stack (JArr (x :: tl)) (32 * n + 1) (32 * n) d)
    (x :: tl) n 1 0) as H.
  cbn [PVecIterator.index PVecIterator.size PVecIterator.jump PVecIterator.tail PVecIterator.stack PVecIterator.leaf PVecIterator.done at_index] in H.
  rewrite Nat.add_0_r in H.
  rewrite H; try reflexivity; try (unfold two31; simpl length; lia).
  rewrite drain_done by (unfold at_index; cbn [PVecIterator.index PVecIterator.size]; lia).
  cbn [mbind result_bind]. change (drop 1 (x :: tl)) with tl.
  rewrite take_ge by reflexivity.
  rewrite app_nil_r. reflexivity.
Qed.

Lemma count_updates_none diff :
  js_ushr diff 10 = 0 -> PVecIterator.count_updates 32 diff (2 * SHIFT) 0 = Ok (0, 10).
Proof.
  intros E. change (2 * SHIFT) with 10. cbn [PVecIterator.count_updates]. rewrite E. reflexivity.
Qed.

Lemma js_get_node ls pad k :
  0 <= k < Z.of_nat (length ls) ->
  js_get (node_of ls pad) k = Ok (JArr (ls !!! Z.to_nat k)).
Proof. intros Hk. unfold node_of. simpl. rewrite js_index_node by lia. reflexivity. Qed.

(** crossing from leaf [k - 1] into leaf [k] of the trie *)
Lemma jump_step sh root ls k sz tl stack leaf d :
  trie_shape sh root ls -> leaves_ok ls ->
  1 <= k < Z.of_nat (length ls) ->
  32 * Z.of_nat (length ls) < sz <= 32 * Z.of_nat (length ls) + 32 ->
  stack_for sh root (k - 1) stack ->
  exists stack',
    PVecIterator.next (PVecIterator.mk sz tl stack leaf (32 * k) (32 * k) d) =
    Ok (Some ((ls !!! Z.to_nat k) !!! 0%nat),
        PVecIterator.mk sz tl stack' (JArr (ls !!! Z.to_nat k)) (32 * k + 1) (32 * k + 32) d) /\
    stack_for sh root k stack'.
Proof.
  intros Hs Hls Hk Hsz Hst.
  pose proof (shape_leaves_bound _ _ _ Hs) as Hb.
  assert (Hlk : length (ls !!! Z.to_nat k) = 32%nat) by (apply leaves_ok_lookup; [assumption|lia]).
  unfold PVecIterator.next. cbn [PVecIterator.index PVecIterator.size PVecIterator.jump PVecIterator.tail PVecIterator.stack PVecIterator.leaf PVecIterator.done].
  destruct (Z.eqb_spec (32 * k) sz); [lia|]. rewrite Z.eqb_refl.
  rewrite js_and_not_MASK by (unfold two31; lia).
  destruct (Z.geb_spec (32 * k) (32 * ((sz - 1) / 32))) as [Hge|_]; [zdm|].
  destruct (diverges_facts (Z.to_nat k) ltac:(lia)) as (_ & Hd10 & _).
  cbv zeta in Hd10. rewrite Z2Nat.id in Hd10 by lia.
  destruct (index_bits (32 * k) ltac:(unfold two31; lia)) as (Hb0 & Hb5 & Hb10).
  replace (32 * k / 32) with k in Hb5 by zdm.
  replace (32 * k mod 32) with 0 in Hb0 by zdm.
  assert (Hfirst : forall c, length c = 32%nat -> js_get (JArr c) 0 = Ok (c !!! 0%nat)) by reflexivity.
  destruct Hs as [|c|ls pad Hn2 Hp Hu|ls0 ls1 pad H0 H1 Hp Hu].
  - simpl in Hk. lia.
  - simpl in Hk. lia.
  - unfold stack_for in Hst |- *. simpl in Hst. subst stack.
    rewrite count_updates_none
      by (apply Hd10; intros E; apply Nat.Div0.mod_divides in E as [q Hq]; lia).
    cbn [mbind result_bind fst snd]. change (Z.to_nat 0) with 0%nat.
    cbn [mbind result_bind PVecIterator.refresh].
    change (js_index [node_of ls pad] 0) with (node_of ls pad).
    unfold SHIFT. rewrite Hb5, (Z.mod_small k) by lia. rewrite js_get_node by lia.
    cbn [mbind result_bind PVecIterator.index PVecIterator.size PVecIterator.jump PVecIterator.tail PVecIterator.stack PVecIterator.leaf PVecIterator.done]. rewrite Hb0, Hfirst by assumption.
    cbn [mbind result_bind]. change BRANCHING_FACTOR with 32.
    eexists; split; reflexivity.
  - rewrite length_app in *.
    unfold stack_for in Hst |- *. cbn [Z.eqb Pos.eqb] in Hst |- *.
    destruct Hst as (child & Hchild & ->).
    destruct (decide (k = 32)) as [->|Hk32].
    + (* the cached parent is replaced by the second child of the root *)
      change (PVecIterator.count_updates 32 (js_xor (32 * 32) (32 * 32 - 1)) (2 * SHIFT) 0)
        with (Ok (A:=Z * Z) (1, 15)).
      cbn [mbind result_bind fst snd]. change (Z.to_nat 1) with 1%nat.
      change (15 - SHIFT) with 10. cbn [PVecIterator.refresh].
      change (js_index [child; ?r] (Z.of_nat 1)) with r.
      change (js_and (js_ushr (32 * 32) 10) MASK) with 1.
      rewrite js_get_1. cbn [mbind result_bind].
      change (js_store [child; ?r] (Z.of_nat 0) ?x) with [x; r].
      change (js_index [?x; _] 0) with x.
      change (js_and (js_ushr (32 * 32) SHIFT) MASK) with 0.
      rewrite js_get_node by lia.
      cbn [mbind result_bind PVecIterator.index PVecIterator.size PVecIterator.jump PVecIterator.tail PVecIterator.stack PVecIterator.leaf PVecIterator.done].
      change (js_and (32 * 32) MASK) with 0.
      rewrite lookup_total_app_r in Hlk |- * by (simpl; lia).
      replace (Z.to_nat 32 - length ls0)%nat with 0%nat in * by lia.
      rewrite Hfirst by assumption. cbn [mbind result_bind].
      eexists; split; [reflexivity|].
      change (32 / 32) with 1. eexists; split; [apply js_get_1 | reflexivity].
    + rewrite count_updates_none
        by (apply Hd10; intros E; apply Nat.Div0.mod_divides in E as [q Hq]; lia).
      cbn [mbind result_bind fst snd]. change (Z.to_nat 0) with 0%nat.
      cbn [mbind result_bind PVecIterator.refresh].
      change (js_index [child; ?r] 0) with child.
      assert (Hq : (k - 1) / 32 = k / 32) by zdm.
      rewrite Hq in Hchild. unfold SHIFT. rewrite Hb5.
      assert (Hc2 : k / 32 = 0 \/ k / 32 = 1) by zdm.
      destruct Hc2 as [Hc2|Hc2]; rewrite Hc2 in Hchild.
      * rewrite js_get_0 in Hchild. injection Hchild as <-.
        rewrite (Z.mod_small k) by zdm. rewrite js_get_node by zdm.
        cbn [mbind result_bind PVecIterator.index PVecIterator.size PVecIterator.jump PVecIterator.tail PVecIterator.stack PVecIterator.leaf PVecIterator.done]. rewrite Hb0.
        rewrite lookup_total_app_l in Hlk |- * by zdm.
        rewrite Hfirst by assumption. cbn [mbind result_bind].
        eexists; split; [reflexivity|].
        rewrite Hc2. eexists; split; [apply js_get_0 | reflexivity].
      * rewrite js_get_1 in Hchild. injection Hchild as <-.
        replace (k mod 32) with (k - 32) by zdm. rewrite js_get_node by zdm.
        cbn [mbind result_bind PVecIterator.index PVecIterator.size PVecIterator.jump PVecIterator.tail PVecIterator.stack PVecIterator.leaf PVecIterator.done]. rewrite Hb0.
        rewrite lookup_total_app_r in Hlk |- * by zdm.
        replace (Z.to_nat k - length ls0)%nat with (Z.to_nat (k - 32)) in * by lia.
        rewrite Hfirst by assumption. cbn [mbind result_bind].
        eexists; split; [reflexivity|].
        rewrite Hc2. eexists; split; [apply js_get_1 | reflexivity].
Qed.

(** ** A full traversal *)

Lemma leaf_split (c : list jsval) :
  length c = 32%nat -> c !!! 0%nat :: take 31 (drop 1 c) = c.
Proof.
  intros Hc. destruct c as [|x c]; [discriminate|]. simpl in Hc.
  change (drop 1 (x :: c)) with c. rewrite take_ge by lia. reflexivity.
Qed.

(** from the boundary of leaf [k] to the end of the vector *)
Lemma drain_from sh root ls tl sz d (j : nat) : forall (k : nat) stack leaf,
  trie_shape sh root ls -> leaves_ok ls ->
  (1 <= k)%nat -> (k + j = length ls)%nat ->
  1 <= Z.of_nat (length tl) <= 32 ->
  sz = 32 * Z.of_nat (length ls) + Z.of_nat (length tl) ->
  stack_for sh root (Z.of_nat k - 1) stack ->
  PVecIterator.drain (Z.to_nat (sz - 32 * Z.of_nat k))
    (PVecIterator.mk sz (JArr tl) stack leaf (32 * Z.of_nat k) (32 * Z.of_nat k) d) =
  Ok (mjoin (drop k ls) ++ tl).
Proof.
  induction j as [|j IH]; intros k stack leaf Hs Hls Hk Hkj Htl Hsz Hst.
  - pose proof (shape_leaves_bound _ _ _ Hs) as Hb.
    rewrite drop_ge by lia. simpl mjoin. simpl app.
    replace (Z.to_nat (sz - 32 * Z.of_nat k)) with (length tl) by lia.
    apply drain_tail; try lia. unfold two31. lia.
  - pose proof (shape_leaves_bound _ _ _ Hs) as Hb.
    destruct (jump_step sh root ls (Z.of_nat k) sz (JArr tl) stack leaf d Hs Hls
                ltac:(lia) ltac:(lia) Hst) as (stack' & Hnext & Hst').
    rewrite Nat2Z.id in Hnext.
    assert (Hlk : length (ls !!! k) = 32%nat) by (apply leaves_ok_lookup; [assumption|lia]).
    replace (Z.to_nat (sz - 32 * Z.of_nat k))
      with (S (31 + Z.to_nat (sz - 32 * Z.of_nat (S k)))) by lia.
    cbn [PVecIterator.drain]. rewrite Hnext. cbn [mbind result_bind fst snd].
    rewrite (drain_in_leaf 31 _ (ls !!! k) (Z.of_nat k) 1);
      cbn [PVecIterator.index PVecIterator.size PVecIterator.jump PVecIterator.tail PVecIterator.stack PVecIterator.leaf PVecIterator.done at_index];
      try reflexivity; try (unfold two31; lia).
    replace (32 * Z.of_nat k + 1 + Z.of_nat 31) with (32 * Z.of_nat (S k)) by lia.
    replace (32 * Z.of_nat k + 32) with (32 * Z.of_nat (S k)) by lia.
    unfold at_index. cbn [PVecIterator.index PVecIterator.size PVecIterator.jump PVecIterator.tail PVecIterator.stack PVecIterator.leaf PVecIterator.done].
    rewrite (IH (S k) stack' (JArr (ls !!! k)) Hs Hls); try lia.
    + cbn [mbind result_bind]. f_equal.
      destruct (lookup_lt_is_Some_2 ls k ltac:(lia)) as [c Hc].
      rewrite (drop_S _ _ _ Hc). rewrite (list_lookup_total_correct _ _ _ Hc) in *.
      simpl mjoin. rewrite <- (leaf_split c Hlk) at 3.
      rewrite <- !app_assoc. reflexivity.
    + replace (Z.of_nat (S k) - 1) with (Z.of_nat k) by lia. exact Hst'.
Qed.

Lemma drain_tail_at sz tl stack leaf d idx jump n :
  idx = 32 * n -> jump = 32 * n ->
  1 <= n -> 1 <= Z.of_nat (length tl) <= 32 ->
  sz = 32 * n + Z.of_nat (length tl) -> sz < two31 ->
  PVecIterator.drain (length tl) (PVecIterator.mk sz (JArr tl) stack leaf idx jump d) = Ok tl.
Proof. intros -> ->. apply drain_tail. Qed.

Lemma drain_from_at sh root ls tl sz d stack leaf idx jump fuel (k : nat) :
  idx = 32 * Z.of_nat k -> jump = 32 * Z.of_nat k ->
  fuel = Z.to_nat (sz - 32 * Z.of_nat k) ->
  trie_shape sh root ls -> leaves_ok ls ->
  (1 <= k <= length ls)%nat ->
  1 <= Z.of_nat (length tl) <= 32 ->
  sz = 32 * Z.of_nat (length ls) + Z.of_nat (length tl) ->
  stack_for sh root (Z.of_nat k - 1) stack ->
  PVecIterator.drain fuel (PVecIterator.mk sz (JArr tl) stack leaf idx jump d) =
  Ok (mjoin (drop k ls) ++ tl).
Proof.
  intros -> -> -> Hs Hls Hk Htl Hsz Hst.
  apply (drain_from sh root ls tl sz d (length ls - k)); try assumption; lia.
Qed.

Lemma get_from_Rep v l : Rep v l ->
  forall n i, (i + n <= length l)%nat ->
  get_from v (Z.of_nat i) n = Ok (take n (drop i l)).
Proof.
  intros HR. destruct (Rep_size v l HR) as [Hsz _].
  induction n as [|n IH]; intros i Hi; [reflexivity|].
  cbn [get_from]. rewrite (get_Rep v l _ HR) by lia. cbn [mbind result_bind].
  replace (Z.of_nat i + 1) with (Z.of_nat (S i)) by lia.
  rewrite IH by lia. cbn [mbind result_bind]. rewrite Nat2Z.id.
  destruct (lookup_lt_is_Some_2 l i ltac:(lia)) as [x Hx].
  rewrite (list_lookup_total_correct _ _ _ Hx), (drop_S _ _ _ Hx). reflexivity.
Qed.

Lemma get_all_Rep v l : Rep v l -> get_all v = Ok l.
Proof.
  intros HR. destruct (Rep_size v l HR) as [Hsz _]. unfold get_all.
  rewrite Hsz, Nat2Z.id. change 0 with (Z.of_nat 0).
  rewrite (get_from_Rep v l HR (length l) 0) by lia.
  rewrite drop_0, take_ge by lia. reflexivity.
Qed.

Lemma toArray_Rep v l : Rep v l -> toArray v = Ok l.
Proof.
  intros [ls tl Hls Hs Ht -> Hsz Htl Hne].
  destruct (Rep_numbers v ls tl Hs Hls Hsz Htl Hne) as (Hn & Hb & Hpos).
  clear Hsz. destruct v as [sz sh rt tlv]. simpl in Hs, Ht, Hn, Hb, Hpos. subst tlv.
  unfold toArray, iterate, PVecIterator.constructor. cbn [PVec.size PVec.shift PVec.root PVec.tail].
  change BRANCHING_FACTOR with 32. change UPPER_BOUND with 64.
  destruct Hs as [|c|ls pad Hn2 Hp Hu|ls0 ls1 pad H0 H1 Hp Hu].
  - (* everything is in the tail *)
    simpl in Hn. change (PVecIterator.js_array_fill 0) with (Ok (@nil jsval)).
    cbn [mbind result_bind].
    destruct (Z.leb_spec sz 32) as [_|]; [|lia].
    cbn [mbind result_bind].
    replace (Z.to_nat sz) with (length tl + 0)%nat by lia.
    rewrite (drain_in_leaf (length tl) _ tl 0 0);
      cbn [PVecIterator.index PVecIterator.size PVecIterator.jump PVecIterator.tail PVecIterator.stack PVecIterator.leaf PVecIterator.done at_index];
      try reflexivity; try (unfold two31; lia).
    unfold at_index. cbn [PVecIterator.index PVecIterator.size PVecIterator.jump PVecIterator.tail PVecIterator.stack PVecIterator.leaf PVecIterator.done].
    rewrite drain_done by (unfold at_index; cbn [PVecIterator.index PVecIterator.size]; lia).
    cbn [mbind result_bind]. rewrite drop_0, take_ge by lia.
    rewrite app_nil_r. reflexivity.
  - (* the root is the only leaf *)
    assert (Hc : length c = 32%nat) by (inversion Hls; assumption).
    destruct (Hpos ltac:(simpl in *; lia)) as [Ht1 _]. simpl in Hn.
    change (PVecIterator.js_array_fill 0) with (Ok (@nil jsval)).
    cbn [mbind result_bind].
    destruct (Z.leb_spec sz 32) as [|_]; [lia|].
    destruct (Z.leb_spec sz 64) as [_|]; [|lia].
    cbn [mbind result_bind].
    replace (Z.to_nat sz) with (32 + length tl)%nat by lia.
    rewrite (drain_in_leaf 32 _ c 0 0);
      cbn [PVecIterator.index PVecIterator.size PVecIterator.jump PVecIterator.tail PVecIterator.stack PVecIterator.leaf PVecIterator.done at_index];
      try reflexivity; try (unfold two31; lia).
    unfold at_index. cbn [PVecIterator.index PVecIterator.size PVecIterator.jump PVecIterator.tail PVecIterator.stack PVecIterator.leaf PVecIterator.done].
    rewrite (drain_tail_at _ _ _ _ _ _ _ 1) by (try reflexivity; try lia; unfold two31; lia).
    cbn [mbind result_bind]. rewrite drop_0, take_ge by lia.
    simpl mjoin. rewrite app_nil_r. reflexivity.
  - (* two levels *)
    destruct (Hpos ltac:(lia)) as [Ht1 _].
    change (PVecIterator.js_array_fill 5) with (Ok [JArr []]).
    cbn [mbind result_bind].
    destruct (Z.leb_spec sz 32) as [|_]; [lia|].
    destruct (Z.leb_spec sz 64) as [|_]; [lia|].
    change (js_store [JArr []] (Z.of_nat (length [JArr []]) - 1) (node_of ls pad))
      with [node_of ls pad].
    change (PVecIterator.seed_stack _ [node_of ls pad]) with (Ok [node_of ls pad]).
    cbn [mbind result_bind]. change (js_index [node_of ls pad] 0) with (node_of ls pad).
    rewrite js_get_node by lia. cbn [mbind result_bind].
    assert (Hl0 : length (ls !!! 0%nat) = 32%nat) by (apply leaves_ok_lookup; [assumption|lia]).
    replace (Z.to_nat sz) with (32 + Z.to_nat (sz - 32 * Z.of_nat 1))%nat by lia.
    rewrite (drain_in_leaf 32 _ (ls !!! 0%nat) 0 0);
      cbn [PVecIterator.index PVecIterator.size PVecIterator.jump PVecIterator.tail PVecIterator.stack PVecIterator.leaf PVecIterator.done at_index];
      try reflexivity; try (unfold two31; lia).
    unfold at_index. cbn [PVecIterator.index PVecIterator.size PVecIterator.jump PVecIterator.tail PVecIterator.stack PVecIterator.leaf PVecIterator.done].
    rewrite (drain_from_at 5 (node_of ls pad) ls tl sz false _ _ _ _ _ 1);
      try reflexivity; try lia; try assumption; [|apply shape_flat; assumption].
    cbn [mbind result_bind]. rewrite drop_0, take_ge by lia.
    destruct ls as [|c ls]; [simpl in Hn2; lia|].
    change ((c :: ls) !!! 0%nat) with c. change (drop 1 (c :: ls)) with ls.
    change (mjoin (c :: ls)) with (c ++ mjoin ls). rewrite <- app_assoc. reflexivity.
  - (* three levels *)
    rewrite length_app in *. destruct (Hpos ltac:(lia)) as [Ht1 _].
    change (PVecIterator.js_array_fill 10) with (Ok [JArr []; JArr []]).
    cbn [mbind result_bind].
    destruct (Z.leb_spec sz 32) as [|_]; [lia|].
    destruct (Z.leb_spec sz 64) as [|_]; [lia|].
    set (root := JArr (node_of ls0 [] :: node_of ls1 pad :: replicate 30 JUndef)).
    change (js_store [JArr []; JArr []] (Z.of_nat (length [JArr []; JArr []]) - 1) root)
      with [JArr []; root].
    change (PVecIterator.seed_stack _ [JArr []; root]) with (Ok [node_of ls0 []; root]).
    cbn [mbind result_bind]. change (js_index [node_of ls0 []; root] 0) with (node_of ls0 []).
    rewrite js_get_node by lia. cbn [mbind result_bind].
    assert (Hl0 : length ((ls0 ++ ls1) !!! 0%nat) = 32%nat)
      by (apply leaves_ok_lookup; [assumption | rewrite length_app; lia]).
    rewrite <- (lookup_total_app_l ls0 ls1) by lia.
    replace (Z.to_nat sz) with (32 + Z.to_nat (sz - 32 * Z.of_nat 1))%nat by lia.
    rewrite (drain_in_leaf 32 _ ((ls0 ++ ls1) !!! 0%nat) 0 0);
      cbn [PVecIterator.index PVecIterator.size PVecIterator.jump PVecIterator.tail PVecIterator.stack PVecIterator.leaf PVecIterator.done at_index];
      try reflexivity; try (unfold two31; lia).
    unfold at_index. cbn [PVecIterator.index PVecIterator.size PVecIterator.jump PVecIterator.tail PVecIterator.stack PVecIterator.leaf PVecIterator.done].
    rewrite (drain_from_at 10 root (ls0 ++ ls1) tl sz false _ _ _ _ _ 1);
      try reflexivity; try (rewrite ?length_app; lia); try assumption.
    + cbn [mbind result_bind]. rewrite drop_0, take_ge by lia.
      destruct ls0 as [|c ls0]; [simpl in H0; lia|].
      change (((c :: ls0) ++ ls1) !!! 0%nat) with c.
      change (drop 1 ((c :: ls0) ++ ls1)) with (ls0 ++ ls1).
      change (mjoin ((c :: ls0) ++ ls1)) with (c ++ mjoin (ls0 ++ ls1)).
      rewrite <- app_assoc. reflexivity.
    + apply shape_deep; assumption.
    + exists (node_of ls0 []). split; reflexivity.
Qed.

(** ** Operations on the store only add arrays *)

Lemma keeps_ret h0 {A} (a : A) (Q : A -> Prop) : Q a -> keeps h0 (mret a) Q.
Proof. intros HQ h Hp. split; [exact Hp|]. intros a' E. injection E as <-. exact HQ. Qed.

Lemma keeps_throw h0 {A} e (Q : A -> Prop) : keeps h0 (Heap.throw e) Q.
Proof. intros h Hp. split; [exact Hp|]. intros a E. discriminate. Qed.

Lemma keeps_bind h0 {A B} (m : Heap.M A) (f : A -> Heap.M B) Q R :
  keeps h0 m Q -> (forall a, Q a -> keeps h0 (f a) R) -> keeps h0 (m ≫= f) R.
Proof.
  intros Hm Hf h Hp. destruct (Hm h Hp) as [Hp' HQ].
  unfold mbind, Heap.M_bind. destruct (m h) as [[a|e] h']; simpl in *.
  - apply (Hf a (HQ a eq_refl) h' Hp').
  - split; [exact Hp'|]. intros a E. discriminate.
Qed.

Lemma keeps_weaken h0 {A} (m : Heap.M A) (Q R : A -> Prop) :
  keeps h0 m Q -> (forall a, Q a -> R a) -> keeps h0 m R.
Proof. intros Hm HQR h Hp. destruct (Hm h Hp) as [Hp' HQ]. split; auto. Qed.

Lemma prefix_snoc (h0 h : Heap.store) a : h0 `prefix_of` h -> h0 `prefix_of` h ++ [a].
Proof. intros [k ->]. exists (k ++ [a]). rewrite app_assoc. reflexivity. Qed.

Lemma prefix_insert_fresh (h0 h : Heap.store) r a :
  h0 `prefix_of` h -> (length h0 <= r)%nat -> h0 `prefix_of` <[r := a]> h.
Proof.
  intros [k ->] Hr. exists (<[(r - length h0)%nat := a]> k).
  apply insert_app_r_alt. exact Hr.
Qed.

Lemma keeps_alloc h0 a : keeps h0 (Heap.alloc a) (fresh h0).
Proof.
  intros h Hp. unfold Heap.alloc. simpl. split; [apply prefix_snoc; exact Hp|].
  intros v E. injection E as <-. simpl. apply prefix_length in Hp. exact Hp.
Qed.

Lemma keeps_read h0 v k : keeps h0 (Heap.read v k) (fun _ => True).
Proof. intros h Hp. unfold Heap.read. simpl. auto. Qed.

Lemma keeps_write h0 v k x : fresh h0 v -> keeps h0 (Heap.write v k x) (fun _ => True).
Proof.
  intros Hv h Hp. unfold Heap.write.
  destruct v as [| |n|r]; simpl; auto.
  case_match; simpl; auto. split; [|auto].
  apply prefix_insert_fresh; assumption.
Qed.

Lemma keeps_array_push h0 v x : fresh h0 v -> keeps h0 (Heap.array_push v x) (fun _ => True).
Proof.
  intros Hv h Hp. unfold Heap.array_push.
  destruct v as [| |n|r]; simpl; auto.
  case_match; simpl; auto. split; [|auto].
  apply prefix_insert_fresh; assumption.
Qed.

Lemma keeps_spread h0 v : keeps h0 (Heap.spread v) (fresh h0).
Proof.
  intros h Hp. unfold Heap.spread.
  destruct v as [| |n|r]; simpl; try (split; [exact Hp | discriminate]).
  case_match; [apply keeps_alloc; exact Hp|].
  simpl. split; [exact Hp | discriminate].
Qed.

Lemma keeps_slice_init h0 v : keeps h0 (Heap.slice_init v) (fresh h0).
Proof.
  intros h Hp. unfold Heap.slice_init.
  destruct v as [| |n|r]; simpl; try (split; [exact Hp | discriminate]).
  case_match; [apply keeps_alloc; exact Hp|].
  simpl. split; [exact Hp | discriminate].
Qed.

Lemma keeps_loop h0 {S} (body : Z -> S -> Heap.M S) (Inv : S -> Prop) bound fuel :
  (forall level s, Inv s -> keeps h0 (body level s) Inv) ->
  forall level s, Inv s -> keeps h0 (Heap.loop_down fuel level bound body s) Inv.
Proof.
  intros Hbody. induction fuel as [|fuel IH]; intros level s Hs; simpl;
    destruct (level >? bound).
  - apply keeps_throw.
  - apply keeps_ret. exact Hs.
  - eapply keeps_bind; [apply Hbody; exact Hs|]. intros s' Hs'. apply IH. exact Hs'.
  - apply keeps_ret. exact Hs.
Qed.

Lemma keeps_for_down h0 {S} (body : Z -> S -> Heap.M S) (Inv : S -> Prop) level bound s :
  (forall level s, Inv s -> keeps h0 (body level s) Inv) ->
  Inv s -> keeps h0 (Heap.for_down level bound body s) Inv.
Proof. intros Hb Hs. apply keeps_loop; assumption. Qed.

Ltac keeps_step :=
  first
    [ apply keeps_ret
    | apply keeps_throw
    | eapply keeps_bind; [ first [ apply keeps_alloc | apply keeps_spread
                                 | apply keeps_slice_init | apply keeps_read
                                 | apply keeps_write | apply keeps_array_push ] | intros ? ? ] ].

Lemma keeps_boundsCheck h0 v i : keeps h0 (Heap.boundsCheck v i) (fun _ => True).
Proof.
  unfold Heap.boundsCheck. destruct (_ || _); [apply keeps_throw | apply keeps_ret; exact I].
Qed.

Lemma keeps_set h0 v i val : keeps h0 (Heap.set v i val) (fun _ => True).
Proof.
  unfold Heap.set. eapply keeps_bind; [apply keeps_boundsCheck|]. intros _ _.
  destruct (i >=? Heap.tailOffset v).
  - eapply keeps_bind; [apply keeps_spread|]. intros newTail Hf.
    eapply keeps_bind; [apply keeps_write; exact Hf|]. intros _ _.
    apply keeps_ret. exact I.
  - eapply keeps_bind; [apply keeps_spread|]. intros newRoot Hf.
    eapply keeps_bind.
    + apply (keeps_for_down h0 _ (fresh h0)); [|exact Hf].
      intros level node Hnode. cbv zeta.
      eapply keeps_bind; [apply keeps_read|]. intros child _.
      eapply keeps_bind; [apply keeps_spread|]. intros child' Hc.
      eapply keeps_bind; [apply keeps_write; exact Hnode|]. intros _ _.
      apply keeps_ret. exact Hc.
    + intros node Hnode.
      eapply keeps_bind; [apply keeps_write; exact Hnode|]. intros _ _.
      apply keeps_ret. exact I.
Qed.

Lemma keeps_newPath h0 levels tail : keeps h0 (Heap.newPath levels tail) (fun _ => True).
Proof.
  unfold Heap.newPath. apply (keeps_for_down h0 _ (fun _ => True)); [|exact I].
  intros level top _.
  eapply keeps_bind; [apply keeps_alloc|]. intros newTop Hf.
  eapply keeps_bind; [apply keeps_write; exact Hf|]. intros _ _.
  apply keeps_ret. exact I.
Qed.

Lemma keeps_pushLeaf_loop h0 tail newRoot fuel : forall level i node,
  fresh h0 node ->
  keeps h0 (Heap.pushLeaf_loop fuel level i tail newRoot node) (fun _ => True).
Proof.
  induction fuel as [|fuel IH]; intros level i node Hnode; simpl;
    destruct (level >? SHIFT).
  - apply keeps_throw.
  - eapply keeps_bind; [apply keeps_write; exact Hnode|]. intros _ _.
    apply keeps_ret. exact I.
  - eapply keeps_bind; [apply keeps_read|]. intros child _.
    destruct (Heap.is_null child).
    + eapply keeps_bind; [apply keeps_newPath|]. intros path _.
      eapply keeps_bind; [apply keeps_write; exact Hnode|]. intros _ _.
      apply keeps_ret. exact I.
    + eapply keeps_bind; [apply keeps_spread|]. intros child' Hc.
      eapply keeps_bind; [apply keeps_write; exact Hnode|]. intros _ _.
      apply IH. exact Hc.
  - eapply keeps_bind; [apply keeps_write; exact Hnode|]. intros _ _.
    apply keeps_ret. exact I.
Qed.

Lemma keeps_push h0 v val : keeps h0 (Heap.push v val) (fun _ => True).
Proof.
  unfold Heap.push. cbv zeta. destruct (negb _).
  - eapply keeps_bind; [apply keeps_spread|]. intros newTail Hf.
    eapply keeps_bind; [apply keeps_array_push; exact Hf|]. intros _ _.
    apply keeps_ret. exact I.
  - eapply keeps_bind; [apply keeps_alloc|]. intros newTail _.
    destruct (Heap.size v =? BRANCHING_FACTOR); [apply keeps_ret; exact I|].
    destruct (_ >? _).
    + eapply keeps_bind; [apply keeps_alloc|]. intros newRoot Hf.
      eapply keeps_bind; [apply keeps_write; exact Hf|]. intros _ _.
      eapply keeps_bind; [apply keeps_newPath|]. intros path _.
      eapply keeps_bind; [apply keeps_write; exact Hf|]. intros _ _.
      apply keeps_ret. exact I.
    + eapply keeps_bind.
      * unfold Heap.pushLeaf. eapply keeps_bind; [apply keeps_spread|]. intros newRoot Hf.
        apply keeps_pushLeaf_loop. exact Hf.
      * intros newRoot _. apply keeps_ret. exact I.
Qed.

Lemma keeps_popTrie_body h0 n d level s :
  (s.1 = false -> fresh h0 s.2) ->
  keeps h0 (Heap.popTrie_body n d level s) (fun s' => s'.1 = false -> fresh h0 s'.2).
Proof.
  destruct s as [hasDiverged node]. simpl. intros Hnode.
  eapply keeps_bind; [apply keeps_read|]. intros child _.
  destruct hasDiverged.
  - apply keeps_ret. simpl. discriminate.
  - destruct (negb _).
    + eapply keeps_bind; [apply keeps_write; apply Hnode; reflexivity|]. intros _ _.
      apply keeps_ret. simpl. discriminate.
    + eapply keeps_bind; [apply keeps_spread|]. intros child' Hc.
      eapply keeps_bind; [apply keeps_write; apply Hnode; reflexivity|]. intros _ _.
      apply keeps_ret. simpl. intros _. exact Hc.
Qed.

Lemma keeps_pop h0 v : keeps h0 (Heap.pop v) (fun _ => True).
Proof.
  unfold Heap.pop. destruct (Heap.size v =? 0); [apply keeps_throw|].
  destruct (Heap.size v =? 1); [apply keeps_ret; exact I|].
  destruct (_ >? 0).
  - eapply keeps_bind; [apply keeps_slice_init|]. intros newTail _.
    apply keeps_ret. exact I.
  - cbv zeta. destruct (_ =? 0).
    + eapply keeps_bind; [apply keeps_alloc|]. intros newRoot _.
      apply keeps_ret. exact I.
    + destruct (_ =? _).
      * unfold Heap.lowerTrie. cbv zeta.
        eapply keeps_bind; [apply keeps_read|]. intros newRoot _.
        eapply keeps_bind; [apply keeps_read|]. intros node _.
        eapply keeps_bind.
        -- apply (keeps_for_down h0 _ (fun _ => True)); [|exact I].
           intros level s _. apply keeps_read.
        -- intros node' _. apply keeps_ret. exact I.
      * unfold Heap.popTrie. cbv zeta.
        eapply keeps_bind; [apply keeps_spread|]. intros newRoot Hf.
        eapply keeps_bind.
        -- apply (keeps_for_down h0 _ (fun s => s.1 = false -> fresh h0 s.2)).
           ++ intros level s Hs. apply keeps_popTrie_body. exact Hs.
           ++ simpl. intros _. exact Hf.
        -- intros s _. apply keeps_ret. exact I.
Qed.

Lemma run_extends o v h : h `prefix_of` (Heap.run o v h).2.
Proof.
  assert (Hk : keeps h (Heap.run o v) (fun _ => True)).
  { destruct o; simpl; [apply keeps_set | apply keeps_push | apply keeps_pop]. }
  apply (Hk h). reflexivity.
Qed.

Lemma reads_ret {A} (a : A) : reads (mret a).
Proof. intros h. split; [reflexivity|]. intros ext a' E. exact E. Qed.

Lemma reads_throw {A} e : reads (@Heap.throw A e).
Proof. intros h. split; [reflexivity|]. intros ext a E. discriminate. Qed.

Lemma reads_bind {A B} (m : Heap.M A) (f : A -> Heap.M B) :
  reads m -> (forall a, reads (f a)) -> reads (m ≫= f).
Proof.
  intros Hm Hf h. destruct (Hm h) as [Hh Hmono].
  pose proof (Hm (h ++ [])) as _.
  unfold mbind, Heap.M_bind. split.
  - destruct (m h) as [[a|e] h'] eqn:E; simpl in *; subst; [apply Hf | reflexivity].
  - intros ext b Hb.
    destruct (m h) as [[a|e] h'] eqn:E; simpl in *; [|discriminate]. subst h'.
    specialize (Hmono ext a eq_refl).
    destruct (Hm (h ++ ext)) as [Hh' _].
    destruct (m (h ++ ext)) as [r h''] eqn:E'. simpl in *. subst r h''.
    apply (Hf a h). exact Hb.
Qed.

Lemma reads_read v k : reads (Heap.read v k).
Proof.
  intros h. split; [reflexivity|]. intros ext a. unfold Heap.read, Heap.fetch. simpl.
  destruct v as [| |n|r]; try (intros E; exact E).
  destruct (h !! r) as [arr|] eqn:E; [|discriminate].
  rewrite (lookup_app_l_Some _ _ _ _ E). intros E'. exact E'.
Qed.

Lemma reads_loop {S} (body : Z -> S -> Heap.M S) bound fuel :
  (forall level s, reads (body level s)) ->
  forall level s, reads (Heap.loop_down fuel level bound body s).
Proof.
  intros Hb. induction fuel as [|fuel IH]; intros level s; simpl;
    destruct (level >? bound).
  - apply reads_throw.
  - apply reads_ret.
  - apply reads_bind; [apply Hb|]. intros s'. apply IH.
  - apply reads_ret.
Qed.

Lemma reads_get v i : reads (Heap.get v i).
Proof.
  unfold Heap.get. apply reads_bind.
  - unfold Heap.boundsCheck. destruct (_ || _); [apply reads_throw | apply reads_ret].
  - intros _. destruct (i >=? Heap.tailOffset v); [apply reads_read|].
    apply reads_bind; [|intros node; apply reads_read].
    apply reads_loop. intros level s. apply reads_read.
Qed.

Lemma get_in_extends h h' v j x :
  h `prefix_of` h' -> Heap.get_in h v j = Ok x -> Heap.get_in h' v j = Ok x.
Proof.
  intros [ext ->] E. unfold Heap.get_in in *. apply (reads_get v j h). exact E.
Qed.

Lemma old_snapshot_unchanged h v j x o :
  Heap.get_in h v j = Ok x -> Heap.get_in (Heap.run o v h).2 v j = Ok x.
Proof. intros E. eapply get_in_extends; [apply run_extends | exact E]. Qed.

(** ** Building vectors; populated slots *)

Lemma concat_Rep xs : forall p l,
  Rep p l -> (length l + length xs <= 2080)%nat ->
  exists w, PVec.concat p xs = Ok w /\ Rep w (l ++ xs).
Proof.
  induction xs as [|x xs IH]; intros p l HR Hlen.
  - exists p. rewrite app_nil_r. split; [reflexivity | exact HR].
  - destruct (Rep_size p l HR) as [Hsz _]. simpl in Hlen.
    destruct (push_room p l x HR ltac:(lia)) as (p' & Hp & HR').
    destruct (IH p' (l ++ [x]) HR' ltac:(rewrite length_app; simpl; lia)) as (w & Hw & HRw).
    exists w. simpl. rewrite Hp. cbn [mbind result_bind]. rewrite <- app_assoc in HRw.
    split; assumption.
Qed.

Lemma from_Rep xs :
  (length xs <= 2080)%nat -> exists v, PVec.from xs = Ok v /\ Rep v xs.
Proof. intros Hlen. apply (concat_Rep xs PVec.empty [] Rep_empty). simpl. lia. Qed.

Lemma concat_reachable xs : forall p w,
  reachable p -> PVec.concat p xs = Ok w -> reachable w.
Proof.
  induction xs as [|x xs IH]; intros p w Hp Hc; simpl in Hc.
  - injection Hc as <-. exact Hp.
  - destruct (PVec.push p x) as [p'|] eqn:E; [|discriminate].
    cbn [mbind result_bind] in Hc. eapply IH; [|exact Hc].
    eapply reach_push; eassumption.
Qed.

Lemma slot_populated_node ls pad k :
  0 <= k < Z.of_nat (length ls) -> slot_populated (node_of ls pad) k = true.
Proof.
  intros Hk. unfold node_of, slot_populated. rewrite length_app, length_fmap.
  destruct (Z.leb_spec 0 k); [|lia]. destruct (Z.ltb_spec k (Z.of_nat (length ls + length pad))); [reflexivity|lia].
Qed.

Lemma slot_populated_leaf c k :
  0 <= k < Z.of_nat (length c) -> slot_populated (JArr c) k = true.
Proof.
  intros Hk. unfold slot_populated.
  destruct (Z.leb_spec 0 k); [|lia]. destruct (Z.ltb_spec k (Z.of_nat (length c))); [reflexivity|lia].
Qed.

Lemma descent_populated_5 i node :
  descent_populated (Z.to_nat 5) 5 i node =
  let k := js_and (js_ushr i 5) MASK in
  slot_populated node k &&
  match js_get node k with
  | Ok child => is_node child && slot_populated child (js_and i MASK)
  | Throw _ => false
  end.
Proof. reflexivity. Qed.

Lemma descent_populated_10 i node :
  descent_populated (Z.to_nat 10) 10 i node =
  let k := js_and (js_ushr i 10) MASK in
  slot_populated node k &&
  match js_get node k with
  | Ok child => is_node child && descent_populated (Z.to_nat 5) 5 i child
  | Throw _ => false
  end.
Proof.
  change (Z.to_nat 10) with 10%nat. cbn [descent_populated].
  change (10 >? 0) with true. change (10 - SHIFT) with 5. cbv iota zeta.
  destruct (slot_populated _ _); [|reflexivity]. cbn [andb].
  destruct (js_get _ _) as [child|]; [|reflexivity].
  destruct (is_node child); reflexivity.
Qed.

Lemma descent_populated_shape s r ls i :
  trie_shape s r ls -> leaves_ok ls -> 0 <= i < 32 * Z.of_nat (length ls) ->
  descent_populated (Z.to_nat s) s i r = true.
Proof.
  intros Hs Hls Hi.
  assert (Hk : 0 <= i / 32 < Z.of_nat (length ls)) by zdm.
  assert (Hlk : length (ls !!! Z.to_nat (i / 32)) = 32%nat)
    by (apply leaves_ok_lookup; [assumption | lia]).
  pose proof (shape_leaves_bound _ _ _ Hs) as Hb.
  destruct (index_bits i ltac:(unfold two31; lia)) as (Hb0 & Hb5 & Hb10).
  destruct Hs as [|c|ls pad Hn Hp Hu|ls0 ls1 pad H0 H1 Hp Hu].
  - simpl in Hi. lia.
  - simpl in *. assert (i / 32 = 0) as E by lia. rewrite E in Hlk. simpl in Hlk.
    change (descent_populated (Z.to_nat 0) 0 i (JArr c))
      with (slot_populated (JArr c) (js_and i MASK)).
    rewrite Hb0. apply slot_populated_leaf. zdm.
  - rewrite descent_populated_5. cbv zeta. rewrite Hb5, Hb0.
    rewrite (Z.mod_small (i / 32)) by lia.
    rewrite slot_populated_node, js_get_node by lia.
    cbn [andb is_node]. apply slot_populated_leaf. zdm.
  - rewrite length_app in *.
    rewrite descent_populated_10. cbv zeta. rewrite Hb10.
    assert (Hc2 : i / 1024 = 0 \/ i / 1024 = 1) by zdm.
    rewrite (Z.mod_small (i / 1024)) by lia.
    destruct Hc2 as [Hc2|Hc2]; rewrite Hc2.
    + destruct (digits_low i ltac:(lia) Hc2) as [Hd ?].
      rewrite js_get_0. unfold node_of at 1 2. cbn [slot_populated length Z.leb Z.ltb andb is_node].
      change (0 ?= Z.of_nat _) with Lt. cbv iota.
      rewrite descent_populated_5. cbv zeta. rewrite Hb5, Hb0, Hd.
      fold (node_of ls0 []).
      rewrite slot_populated_node, js_get_node by lia.
      cbn [andb is_node].
      rewrite lookup_total_app_l in Hlk by lia.
      apply slot_populated_leaf. zdm.
    + destruct (digits_high i ltac:(lia) Hc2) as [Hd ?].
      rewrite js_get_1.
      change (slot_populated (JArr (_ :: _ :: replicate 30 JUndef)) 1) with true.
      cbn [andb]. unfold node_of at 2. cbn [is_node]. fold (node_of ls1 pad).
      rewrite descent_populated_5. cbv zeta. rewrite Hb5, Hb0, Hd.
      rewrite slot_populated_node, js_get_node by lia.
      cbn [andb is_node].
      rewrite lookup_total_app_r in Hlk by lia.
      replace (Z.to_nat (i / 32) - length ls0)%nat with (Z.to_nat (i / 32 - 32)) in Hlk by lia.
      apply slot_populated_leaf. zdm.
Qed.

Lemma get_populated_Rep v l i :
  Rep v l -> 0 <= i < PVec.size v -> get_populated v i = true.
Proof.
  intros [ls tl Hls Hs Ht -> Hsz Htl Hne] Hi.
  destruct (Rep_numbers v ls tl Hs Hls Hsz Htl Hne) as (Hn & Hb & Hpos).
  destruct (Hpos ltac:(lia)) as [Htl1 Hoff].
  unfold get_populated. rewrite Hoff.
  destruct (index_bits i ltac:(unfold two31; lia)) as (Hb0 & _ & _).
  destruct (Z.geb_spec i (32 * Z.of_nat (length ls))) as [Hge|Hlt].
  - rewrite Ht, Hb0. apply slot_populated_leaf. zdm.
  - apply (descent_populated_shape _ _ ls); [assumption | assumption | lia].
Qed.

(** ** The specification claims *)

Lemma vec70_reachable : reachable vec70.
Proof.
  apply (concat_reachable (nums 70) PVec.empty); [apply reach_empty|].
  vm_compute. reflexivity.
Qed.

Lemma js_get_error v k e : js_get v k = Throw e -> e = TypeError.
Proof. destruct v; simpl; intros E; congruence. Qed.

Lemma js_spread_error v e : js_spread v = Throw e -> e = TypeError.
Proof. destruct v; simpl; intros E; congruence. Qed.

Lemma loop_down_error {S} (body : Z -> S -> result S) bound fuel :
  (forall level s e, body level s = Throw e -> e <> IndexOutOfRange) ->
  forall level s e, loop_down fuel level bound body s = Throw e -> e <> IndexOutOfRange.
Proof.
  intros Hb. induction fuel as [|fuel IH]; intros level s e; simpl;
    destruct (level >? bound); try discriminate.
  - intros E. injection E as <-. discriminate.
  - destruct (body level s) as [s'|e'] eqn:E; cbn [mbind result_bind].
    + apply IH.
    + intros E'. injection E' as <-. eapply Hb. exact E.
Qed.

Lemma set_loop_error fuel : forall level i val node e,
  PVec.set_loop fuel level i val node = Throw e -> e <> IndexOutOfRange.
Proof.
  induction fuel as [|fuel IH]; intros level i val node e; simpl;
    destruct (level >? 0); try discriminate.
  - intros E. injection E as <-. discriminate.
  - destruct (js_spread _) as [child|e'] eqn:E; cbn [mbind result_bind].
    + destruct (PVec.set_loop fuel _ i val child) as [c'|e''] eqn:E'; cbn [mbind result_bind].
      * discriminate.
      * intros E2. injection E2 as <-. eapply IH. exact E'.
    + intros E2. injection E2 as <-. apply js_spread_error in E. subst. discriminate.
Qed.

Lemma get_in_range_error v i e :
  0 <= i < PVec.size v -> PVec.get v i = Throw e -> e <> IndexOutOfRange.
Proof.
  intros Hi. unfold PVec.get. rewrite boundsCheck_ok by assumption. cbn [mbind result_bind].
  destruct (i >=? PVec.tailOffset v).
  - intros E. apply js_get_error in E. subst. discriminate.
  - destruct (for_down _ _ _ _) as [node|e'] eqn:E; cbn [mbind result_bind].
    + intros E'. apply js_get_error in E'. subst. discriminate.
    + intros E'. injection E' as <-. unfold for_down in E.
      eapply loop_down_error; [|exact E].
      intros level s e0 E0. apply js_get_error in E0. subst. discriminate.
Qed.

Lemma set_in_range_error v i x e :
  0 <= i < PVec.size v -> PVec.set v i x = Throw e -> e <> IndexOutOfRange.
Proof.
  intros Hi. unfold PVec.set. rewrite boundsCheck_ok by assumption. cbn [mbind result_bind].
  destruct (i >=? PVec.tailOffset v).
  - destruct (js_spread _) as [t|e'] eqn:E; cbn [mbind result_bind]; [discriminate|].
    intros E'. injection E' as <-. apply js_spread_error in E. subst. discriminate.
  - destruct (js_spread _) as [r|e'] eqn:E; cbn [mbind result_bind].
    + destruct (PVec.set_loop _ _ _ _ _) as [r'|e''] eqn:E'; cbn [mbind result_bind]; [discriminate|].
      intros E2. injection E2 as <-. eapply set_loop_error. exact E'.
    + intros E'. injection E' as <-. apply js_spread_error in E. subst. discriminate.
Qed.

Lemma get_out_of_range v i :
  i < 0 \/ PVec.size v <= i -> PVec.get v i = Throw IndexOutOfRange.
Proof. intros Hi. unfold PVec.get. rewrite boundsCheck_fail by assumption. reflexivity. Qed.

Lemma set_out_of_range v i x :
  i < 0 \/ PVec.size v <= i -> PVec.set v i x = Throw IndexOutOfRange.
Proof. intros Hi. unfold PVec.set. rewrite boundsCheck_fail by assumption. reflexivity. Qed.

Lemma heap_boundsCheck_fail (v : Heap.t) i h :
  i < 0 \/ Heap.size v <= i -> Heap.boundsCheck v i h = (Throw IndexOutOfRange, h).
Proof.
  intros Hi. unfold Heap.boundsCheck.
  destruct (Z.geb_spec i (Heap.size v)); [reflexivity|].
  destruct (Z.ltb_spec i 0); [reflexivity|lia].
Qed.

(** Claim C2.  On a reachable vector [v] and an index [i] in range,
    [set(i, x)] returns a vector [w] with [w.get(i) = x] and, at every other
    valid index [j], [w.get(j) = v.get(j)]. *)
Theorem set_then_get v i x :
  reachable v -> 0 <= i < PVec.size v ->
  exists w,
    PVec.set v i x = Ok w /\
    PVec.get w i = Ok x /\
    forall j, 0 <= j < PVec.size v -> j <> i -> PVec.get w j = PVec.get v j.
Proof.
  intros Hr Hi. destruct (reachable_Rep v Hr) as [l HR].
  destruct (set_Rep v l i x HR Hi) as (w & Hw & HRw).
  destruct (Rep_size v l HR) as [Hsz _]. destruct (Rep_size w _ HRw) as [Hszw _].
  rewrite length_insert in Hszw.
  exists w. split; [exact Hw|]. split.
  - rewrite (get_Rep w _ i HRw) by lia.
    rewrite list_lookup_total_insert_eq by lia. reflexivity.
  - intros j Hj Hne. rewrite (get_Rep w _ j HRw), (get_Rep v l j HR) by lia.
    rewrite list_lookup_total_insert_ne by lia. reflexivity.
Qed.

Lemma set_then_get_witness :
  exists w,
    PVec.set vec70 3 (JNum 9) = Ok w /\
    PVec.get w 3 = Ok (JNum 9) /\
    forall j, 0 <= j < PVec.size vec70 -> j <> 3 -> PVec.get w j = PVec.get vec70 j.
Proof.
  apply (set_then_get vec70 3 (JNum 9)).
  - apply vec70_reachable.
  - vm_compute. split; [discriminate | reflexivity].
Defined.

(** Claim C5.  [get(i)] and [set(i, x)] end with the out-of-bounds error
    exactly when [i < 0] or [i >= size], whatever the root and the tail hold
    (the check comes before any access to them); in the store model the
    failing call leaves the store as it was. *)
Theorem index_out_of_range v i x :
  (PVec.get v i = Throw IndexOutOfRange <-> i < 0 \/ PVec.size v <= i) /\
  (PVec.set v i x = Throw IndexOutOfRange <-> i < 0 \/ PVec.size v <= i) /\
  (forall (u : Heap.t) (y : Heap.hval) (h : Heap.store),
     i < 0 \/ Heap.size u <= i ->
     Heap.get u i h = (Throw IndexOutOfRange, h) /\
     Heap.set u i y h = (Throw IndexOutOfRange, h)).
Proof.
  split_and!.
  - split; [|apply get_out_of_range].
    intros E. destruct (Z.lt_ge_cases i 0); [auto|].
    destruct (Z.lt_ge_cases i (PVec.size v)); [|auto].
    exfalso. eapply (get_in_range_error v i); [lia | exact E | reflexivity].
  - split; [|apply set_out_of_range].
    intros E. destruct (Z.lt_ge_cases i 0); [auto|].
    destruct (Z.lt_ge_cases i (PVec.size v)); [|auto].
    exfalso. eapply (set_in_range_error v i x); [lia | exact E | reflexivity].
  - intros u y h Hi. unfold Heap.get, Heap.set.
    unfold mbind at 1 3, Heap.M_bind.
    rewrite (heap_boundsCheck_fail u i h Hi). split; reflexivity.
Qed.

Lemma index_out_of_range_witness :
  PVec.get vec70 70 = Throw IndexOutOfRange /\
  PVec.set vec70 70 JNull = Throw IndexOutOfRange /\
  Heap.get hvec70 70 store70 = (Throw IndexOutOfRange, store70).
Proof.
  destruct (index_out_of_range vec70 70 JNull) as (Hg & Hs & Hh).
  split_and!.
  - apply Hg. right. vm_compute. discriminate.
  - apply Hs. right. vm_compute. discriminate.
  - apply (Hh hvec70 Heap.HNull store70). right. vm_compute. discriminate.
Defined.

(** Claim C6.  [pop()] on a vector of size 0 throws the empty-collection
    error, and on a vector of size 1 it returns the shared empty vector
    [EMPTY_VEC]; in the store model that is the instance allocated once, and
    the store is left as it was. *)
Theorem pop_small v (u : Heap.t) (h : Heap.store) :
  (PVec.size v = 0 -> PVec.pop v = Throw EmptyCollectionError) /\
  (PVec.size v = 1 -> PVec.pop v = Ok PVec.EMPTY_VEC) /\
  (Heap.size u = 0 -> Heap.pop u h = (Throw EmptyCollectionError, h)) /\
  (Heap.size u = 1 -> Heap.pop u h = (Ok Heap.EMPTY_VEC, h)).
Proof.
  unfold PVec.pop, Heap.pop. split_and!; intros ->; reflexivity.
Qed.

Lemma pop_small_witness :
  PVec.pop PVec.empty = Throw EmptyCollectionError /\
  PVec.pop (PVec.mk 1 0 (JArr []) (JArr [JNum 7])) = Ok PVec.EMPTY_VEC.
Proof.
  split.
  - apply (pop_small PVec.empty Heap.empty Heap.init_store). reflexivity.
  - apply (pop_small (PVec.mk 1 0 (JArr []) (JArr [JNum 7])) Heap.empty Heap.init_store).
    reflexivity.
Defined.

(** Claim C7.  Every reachable snapshot has a shift that is a non-negative
    multiple of 5, and a tail that is an array of at most 32 elements, empty
    when [size = 0] and of length [size - tailOffset] otherwise, where
    [tailOffset = (size - 1) & ~MASK]. *)
Theorem representation_invariants v :
  reachable v ->
  (0 <= PVec.shift v /\ PVec.shift v mod 5 = 0) /\
  exists tl,
    PVec.tail v = JArr tl /\
    (PVec.size v = 0 -> tl = []) /\
    (0 < PVec.size v -> Z.of_nat (length tl) = PVec.size v - PVec.tailOffset v) /\
    (0 <= length tl <= 32)%nat.
Proof.
  intros Hr. destruct (reachable_Rep v Hr) as [l HR].
  destruct HR as [ls tl Hls Hs Ht Hl Hsz Htl Hne]. subst l.
  destruct (Rep_numbers v ls tl Hs Hls Hsz Htl Hne) as (Hn & Hb & Hpos).
  split.
  - destruct (shape_shift _ _ _ Hs) as [E|[E|E]]; rewrite E; split; (lia || reflexivity).
  - exists tl. split_and!.
    + assumption.
    + intros E. destruct tl; [reflexivity | simpl in *; lia].
    + intros Hp. destruct (Hpos Hp) as [_ Hoff]. lia.
    + lia.
    + assumption.
Qed.

Lemma representation_invariants_witness :
  (0 <= PVec.shift vec70 /\ PVec.shift vec70 mod 5 = 0) /\
  exists tl,
    PVec.tail vec70 = JArr tl /\
    (PVec.size vec70 = 0 -> tl = []) /\
    (0 < PVec.size vec70 ->
     Z.of_nat (length tl) = PVec.size vec70 - PVec.tailOffset vec70) /\
    (0 <= length tl <= 32)%nat.
Proof. apply (representation_invariants vec70). apply vec70_reachable. Defined.

(** Claim C8.  Pushing 33 elements from the empty vector and calling [pop()]
    once gives a vector of size 32 whose [get(i)] is the [i]-th pushed value
    for [i] in 0..31; its tail is the former root leaf and its root and shift
    are reset to the empty array and 0. *)
Theorem push33_then_pop xs :
  length xs = 33%nat ->
  exists v w,
    PVec.from xs = Ok v /\ PVec.pop v = Ok w /\
    PVec.size w = 32 /\
    (forall i, 0 <= i < 32 -> PVec.get w i = Ok (xs !!! Z.to_nat i)) /\
    PVec.tail w = PVec.root v /\ PVec.root w = JArr [] /\ PVec.shift w = 0.
Proof.
  intros Hlen. destruct (from_Rep xs ltac:(lia)) as (v & Hv & HR).
  destruct (Rep_size v xs HR) as [Hsz _]. rewrite Hlen in Hsz.
  destruct (pop_Rep v xs HR ltac:(lia)) as (w & Hw & HRw).
  exists v, w. split; [exact Hv|]. split; [exact Hw|].
  assert (Ew : w = PVec.mk 32 0 (JArr []) (PVec.root v)).
  { unfold PVec.pop in Hw. rewrite Hsz in Hw. simpl in Hw.
    change BRANCHING_FACTOR with 32 in Hw. congruence. }
  split_and!; try (rewrite Ew; reflexivity).
  intros i Hi. rewrite (get_Rep w _ i HRw) by (rewrite Ew; simpl; lia).
  unfold init. rewrite lookup_total_take_lt by lia. reflexivity.
Qed.

Lemma push33_then_pop_witness :
  exists v w,
    PVec.from (nums 33) = Ok v /\ PVec.pop v = Ok w /\
    PVec.size w = 32 /\
    (forall i, 0 <= i < 32 -> PVec.get w i = Ok (nums 33 !!! Z.to_nat i)) /\
    PVec.tail w = PVec.root v /\ PVec.root w = JArr [] /\ PVec.shift w = 0.
Proof. apply (push33_then_pop (nums 33)). reflexivity. Defined.

(** Claim C10.  On a reachable vector, [get(i)] with [i] in range only
    indexes populated slots: every slot it reads lies inside its array, every
    child it steps into is an array (neither [undefined] nor [null]), and the
    read returns a value. *)
Theorem get_reads_populated_slots v i :
  reachable v -> 0 <= i < PVec.size v ->
  get_populated v i = true /\ exists x, PVec.get v i = Ok x.
Proof.
  intros Hr Hi. destruct (reachable_Rep v Hr) as [l HR]. split.
  - apply (get_populated_Rep v l); assumption.
  - eexists. apply (get_Rep v l); assumption.
Qed.

Lemma get_reads_populated_slots_witness :
  get_populated vec70 40 = true /\ exists x, PVec.get vec70 40 = Ok x.
Proof.
  apply (get_reads_populated_slots vec70 40).
  - apply vec70_reachable.
  - vm_compute. split; [discriminate | reflexivity].
Defined.

(** Claim C1 does not hold on the code: on the vector built by pushing the
    2080 elements 0..2079, one more [push] ends with a [TypeError] thrown by
    [[...child]] in [#pushLeaf], where [child] is a slot of the root that was
    never assigned. *)
Theorem push_throws_on_2080_elements :
  (v ← PVec.from (nums 2080); PVec.push v (JNum 2080)) = Throw TypeError.
Proof. vm_compute. reflexivity. Qed.

(** Claim C4 does not hold on the code: on the vector [v] built by pushing
    the 2080 elements 0..2079, evaluating [v.push(x).pop().isEqualTo(v)] ends
    with the [TypeError] of [push] instead of returning [true]. *)
Theorem push_pop_round_trip_throws :
  (v ← PVec.from (nums 2080);
   w ← PVec.push v (JNum 2080);
   u ← PVec.pop w;
   PVec.isEqualTo u v) = Throw TypeError.
Proof. vm_compute. reflexivity. Qed.

Lemma nums_length n : length (nums n) = n.
Proof. unfold nums. rewrite length_fmap, length_seq. reflexivity. Qed.

Lemma nums_split n m : (m <= n)%nat -> nums n = nums m ++ drop m (nums n).
Proof.
  intros Hle. unfold nums. rewrite <- (take_drop m (_ <$> seq 0 n)) at 1.
  f_equal. rewrite <- fmap_take. f_equal. rewrite take_seq. f_equal. lia.
Qed.

Lemma concat_app a : forall b q,
  PVec.concat q (a ++ b) = (q' ← PVec.concat q a; PVec.concat q' b).
Proof.
  induction a as [|x a IH]; intros b q; [reflexivity|].
  cbn [app PVec.concat].
  destruct (PVec.push q x); cbn [mbind result_bind]; [apply IH | reflexivity].
Qed.

(** more than 2080 elements cannot be pushed *)
Lemma from_too_long xs : (2080 < length xs)%nat -> PVec.from xs = Throw TypeError.
Proof.
  intros Hlen. rewrite <- (take_drop 2080 xs). unfold PVec.from.
  rewrite concat_app.
  destruct (concat_Rep (take 2080 xs) PVec.empty [] Rep_empty) as (p & Hp & HRp).
  { rewrite length_take. cbn [length]. lia. }
  rewrite Hp. cbn [mbind result_bind].
  destruct (drop 2080 xs) as [|x rest] eqn:Ed.
  { apply (f_equal length) in Ed. rewrite length_drop in Ed. cbn [length] in Ed. lia. }
  cbn [PVec.concat]. rewrite (push_full p _ x HRp); [reflexivity|].
  destruct (Rep_size p _ HRp) as [Hsz _]. rewrite Hsz, app_nil_l, length_take. lia.
Qed.

(** Claim C3.  For every [N], if pushing the elements 0..N-1 onto the empty
    vector yields a vector, then traversing it with the cursor and reading
    [get(0)], ..., [get(N-1)] both yield the sequence 0..N-1. *)
Theorem iterate_agrees_with_get (N : nat) v :
  PVec.from (nums N) = Ok v ->
  toArray v = Ok (nums N) /\ get_all v = Ok (nums N).
Proof.
  intros Hv. assert (HR : Rep v (nums N)).
  { destruct (decide (N <= 2080)%nat) as [Hle|Hgt].
    - destruct (from_Rep (nums N)) as (v' & Hv' & HR).
      + rewrite nums_length. exact Hle.
      + congruence.
    - rewrite from_too_long in Hv by (rewrite nums_length; lia). discriminate. }
  split; [apply toArray_Rep | apply get_all_Rep]; exact HR.
Qed.

Lemma iterate_agrees_with_get_witness :
  toArray vec70 = Ok (nums 70) /\ get_all vec70 = Ok (nums 70).
Proof. apply (iterate_agrees_with_get 70 vec70). vm_compute. reflexivity. Defined.

(** Claim C9.  In the store model, if [v.get(j)] answers [x] in a store, it
    still answers [x] in the store left by a [set], [push] or [pop] applied
    to any vector [u] ([u = v] included), whether that call returns or
    throws: the operation writes only into arrays it has allocated. *)
Theorem earlier_snapshots_unchanged (h : Heap.store) (v u : Heap.t) j x (o : Heap.op) :
  Heap.get_in h v j = Ok x ->
  Heap.get_in (Heap.run o u h).2 v j = Ok x.
Proof. intros E. eapply get_in_extends; [apply run_extends | exact E]. Qed.

Lemma earlier_snapshots_unchanged_witness :
  Heap.get_in store70 hvec70 3 = Ok (Heap.HNum 3) /\
  Heap.get_in (Heap.run (Heap.OpSet 3 (Heap.HNum 9)) hvec70 store70).2 hvec70 3 =
    Ok (Heap.HNum 3) /\
  Heap.get_in (Heap.run (Heap.OpPush Heap.HNull) hvec70 store70).2 hvec70 69 =
    Ok (Heap.HNum 69).
Proof.
  split_and!.
  - vm_compute. reflexivity.
  - apply (earlier_snapshots_unchanged store70 hvec70 hvec70 3 (Heap.HNum 3)).
    vm_compute. reflexivity.
  - apply (earlier_snapshots_unchanged store70 hvec70 hvec70 69 (Heap.HNum 69)).
    vm_compute. reflexivity.
Defined.

(** * Further properties *)

(** ** Contents of reachable vectors *)

(** the sequence a reachable vector holds *)
Lemma reachable_content v :
  reachable v -> exists l, Rep v l /\ get_all v = Ok l /\ toArray v = Ok l.
Proof.
  intros Hr. destruct (reachable_Rep v Hr) as [l HR]. exists l.
  split; [exact HR|]. split; [apply get_all_Rep | apply toArray_Rep]; exact HR.
Qed.

Lemma Rep_content v l l' : Rep v l -> get_all v = Ok l' -> l' = l.
Proof. intros HR E. rewrite (get_all_Rep v l HR) in E. congruence. Qed.

Lemma for_of_drain {A} (body : A -> jsval -> result A) fuel :
  forall it acc xs,
  PVecIterator.drain fuel it = Ok xs ->
  Functional.for_of fuel body it acc = fold_result body acc xs.
Proof.
  induction fuel as [|fuel IH]; intros it acc xs; cbn [PVecIterator.drain Functional.for_of];
    destruct (PVecIterator.next it) as [[[x|] it']|e]; cbn [mbind result_bind fst snd];
    try discriminate.
  - intros E. injection E as <-. reflexivity.
  - destruct (PVecIterator.drain fuel it') as [ys|] eqn:Ed; cbn [mbind result_bind]; [|discriminate].
    intros E. injection E as <-. cbn [fold_result].
    destruct (body acc x) as [acc'|]; cbn [mbind result_bind]; [|reflexivity].
    apply IH. exact Ed.
  - intros E. injection E as <-. reflexivity.
Qed.

Lemma reduce_Rep {A} (f : A -> jsval -> result A) init v l :
  Rep v l -> Functional.reduce f init v = fold_result f init l.
Proof.
  intros HR. pose proof (toArray_Rep v l HR) as Ht. unfold toArray in Ht. unfold Functional.reduce.
  destruct (iterate v) as [it|]; cbn [mbind result_bind] in *; [|discriminate].
  apply for_of_drain. exact Ht.
Qed.

Lemma fold_push_Rep (g : jsval -> option jsval) xs : forall p l,
  Rep p l -> (length l + length xs <= 2080)%nat ->
  exists w,
    fold_result (fun acc x => match g x with Some y => PVec.push acc y | None => Ok acc end) p xs = Ok w /\
    Rep w (l ++ omap g xs).
Proof.
  induction xs as [|x xs IH]; intros p l HR Hlen.
  - exists p. simpl. rewrite app_nil_r. split; [reflexivity | exact HR].
  - cbn [fold_result omap list_omap]. simpl in Hlen. destruct (g x) as [y|].
    + destruct (Rep_size p l HR) as [Hsz _].
      destruct (push_room p l y HR ltac:(lia)) as (p' & Hp & HR').
      rewrite Hp. cbn [mbind result_bind].
      destruct (IH p' (l ++ [y]) HR' ltac:(rewrite length_app; simpl; lia)) as (w & Hw & HRw).
      exists w. split; [exact Hw|]. rewrite <- app_assoc in HRw. exact HRw.
    + cbn [mbind result_bind]. apply IH; [exact HR | lia].
Qed.

(** ** Equality, emptiness and height *)







Lemma Rep_reachable_push v x w : reachable v -> PVec.push v x = Ok w -> reachable w.
Proof. intros. eapply reach_push; eassumption. Qed.

Lemma fold_push_reachable (g : jsval -> option jsval) xs : forall p w,
  reachable p ->
  fold_result (fun acc x => match g x with Some y => PVec.push acc y | None => Ok acc end) p xs = Ok w ->
  reachable w.
Proof.
  induction xs as [|x xs IH]; intros p w Hp E; cbn [fold_result] in E.
  - injection E as <-. exact Hp.
  - destruct (g x) as [y|].
    + destruct (PVec.push p y) as [p'|] eqn:Ep; cbn [mbind result_bind] in E; [|discriminate].
      eapply IH; [|exact E]. eapply reach_push; eassumption.
    + cbn [mbind result_bind] in E. eapply IH; eassumption.
Qed.

Lemma Rep_unique v l l' : Rep v l -> Rep v l' -> l = l'.
Proof.
  intros H1 H2. pose proof (get_all_Rep v l H1). pose proof (get_all_Rep v l' H2). congruence.
Qed.


Lemma shape_shift_leaves s r ls :
  trie_shape s r ls ->
  (s = 0 /\ (length ls <= 1)%nat) \/
  (s = 5 /\ (2 <= length ls <= 32)%nat) \/
  (s = 10 /\ (33 <= length ls <= 64)%nat).
Proof. destruct 1; rewrite ?length_app; simpl; lia. Qed.

Lemma shift_Rep v l : Rep v l -> PVec.shift v = shift_of_size (PVec.size v).
Proof.
  intros [ls tl Hls Hs Ht Hl Hsz Htl Hne]. subst l.
  destruct (Rep_numbers v ls tl Hs Hls Hsz Htl Hne) as (Hn & Hb & Hpos).
  assert (Ht1 : (1 <= length ls)%nat -> (1 <= length tl)%nat).
  { intros H. destruct ls; [simpl in H; lia|].
    specialize (Hne ltac:(discriminate)). destruct tl; [congruence | simpl; lia]. }
  apply shape_shift_leaves in Hs.
  unfold shift_of_size.
  destruct (Z.leb_spec (PVec.size v) 64); [lia|].
  destruct (Z.leb_spec (PVec.size v) 1056); lia.
Qed.

(** ** Allocation counts *)

Lemma levels_nonpos d : d <= 0 -> levels d = 0%nat.
Proof.
  intros Hd. unfold levels.
  assert ((d + 4) / 5 <= 0) by (Z.div_mod_to_equations; lia). lia.
Qed.
























(** ** Sequences of pushes beyond the capacity *)

Lemma concat_too_long xs p l :
  Rep p l -> (2080 < length l + length xs)%nat -> PVec.concat p xs = Throw TypeError.
Proof.
  intros HR Hlen. destruct (Rep_size p l HR) as [Hsz Hb].
  rewrite <- (take_drop (2080 - length l) xs), concat_app.
  destruct (concat_Rep (take (2080 - length l) xs) p l HR) as (q & Hq & HRq).
  { rewrite length_take. lia. }
  rewrite Hq. cbn [mbind result_bind].
  destruct (drop (2080 - length l) xs) as [|x rest] eqn:Ed.
  { apply (f_equal length) in Ed. rewrite length_drop in Ed. cbn [length] in Ed. lia. }
  cbn [PVec.concat]. rewrite (push_full q _ x HRq); [reflexivity|].
  destruct (Rep_size q _ HRq) as [Hsq _]. rewrite Hsq, length_app, length_take. lia.
Qed.

Lemma fold_result_ext {A} (f g : A -> jsval -> result A) xs :
  (forall a x, f a x = g a x) -> forall a, fold_result f a xs = fold_result g a xs.
Proof.
  intros Hfg. induction xs as [|x xs IH]; intros a; [reflexivity|].
  cbn [fold_result]. rewrite Hfg.
  destruct (g a x); cbn [mbind result_bind]; [apply IH | reflexivity].
Qed.

Lemma omap_Some_fmap (f : jsval -> jsval) (xs : list jsval) : omap (fun x => Some (f x)) xs = f <$> xs.
Proof. induction xs as [|x xs IH]; [reflexivity|]. cbn. rewrite IH. reflexivity. Qed.

Lemma omap_if_filter (p : jsval -> bool) (xs : list jsval) :
  omap (fun x => if p x then Some x else None) xs = List.filter p xs.
Proof.
  induction xs as [|x xs IH]; [reflexivity|]. cbn. destruct (p x); rewrite IH; reflexivity.
Qed.

Lemma last_default_snoc (l : list jsval) x : default JNull (last (l ++ [x])) = x.
Proof. rewrite last_snoc. reflexivity. Qed.

(** ** Further properties of the operations *)

(** X1.  When [push(x)] on a reachable vector returns, the new vector has one
    more element, [x] is read at the old size, and every earlier index reads
    what it read before. *)
Theorem push_appends v x w :
  reachable v -> PVec.push v x = Ok w ->
  PVec.size w = PVec.size v + 1 /\
  PVec.get w (PVec.size v) = Ok x /\
  (forall j, 0 <= j < PVec.size v -> PVec.get w j = PVec.get v j).
Proof.
  intros Hr Hp. destruct (reachable_Rep v Hr) as [l HR].
  pose proof (push_Rep v l x w HR Hp) as HRw.
  destruct (Rep_size v l HR) as [Hsv _]. destruct (Rep_size w _ HRw) as [Hsw _].
  rewrite length_app in Hsw. cbn [length] in Hsw.
  split_and!.
  - lia.
  - rewrite (get_Rep w _ _ HRw) by lia. f_equal.
    rewrite Hsv, Nat2Z.id. apply list_lookup_total_middle. reflexivity.
  - intros j Hj. rewrite (get_Rep w _ _ HRw), (get_Rep v _ _ HR) by lia. f_equal.
    apply lookup_total_app_l. lia.
Qed.

Lemma push_appends_witness :
  exists w,
    PVec.push vec70 (JNum 7) = Ok w /\
    PVec.size w = PVec.size vec70 + 1 /\
    PVec.get w (PVec.size vec70) = Ok (JNum 7) /\
    (forall j, 0 <= j < PVec.size vec70 -> PVec.get w j = PVec.get vec70 j).
Proof.
  eexists. split; [vm_compute; reflexivity|].
  apply (push_appends vec70 (JNum 7)).
  - apply vec70_reachable.
  - vm_compute. reflexivity.
Defined.

(** X2.  A reachable vector holds at most 2080 elements: [push] returns a
    vector while the size is below 2080 and throws a [TypeError] at 2080. *)
Theorem push_capacity v x :
  reachable v ->
  PVec.size v <= 2080 /\
  (PVec.size v < 2080 -> exists w, PVec.push v x = Ok w /\ reachable w) /\
  (PVec.size v = 2080 -> PVec.push v x = Throw TypeError).
Proof.
  intros Hr. destruct (reachable_Rep v Hr) as [l HR].
  destruct (Rep_size v l HR) as [Hsv Hb]. split_and!.
  - lia.
  - intros Hlt. destruct (push_room v l x HR ltac:(lia)) as (w & Hw & _).
    exists w. split; [exact Hw|]. eapply reach_push; eassumption.
  - intros E. apply (push_full v l x HR E).
Qed.

Lemma push_capacity_witness :
  PVec.size vec70 <= 2080 /\
  (PVec.size vec70 < 2080 -> exists w, PVec.push vec70 JNull = Ok w /\ reachable w) /\
  (PVec.size vec70 = 2080 -> PVec.push vec70 JNull = Throw TypeError).
Proof. apply (push_capacity vec70 JNull). apply vec70_reachable. Defined.

(** X3.  [pop()] on a non-empty reachable vector returns a vector with one
    element less in which every remaining index reads what it read before. *)
Theorem pop_drops_last v :
  reachable v -> 0 < PVec.size v ->
  exists w,
    PVec.pop v = Ok w /\ reachable w /\
    PVec.size w = PVec.size v - 1 /\
    (forall j, 0 <= j < PVec.size v - 1 -> PVec.get w j = PVec.get v j).
Proof.
  intros Hr Hpos. destruct (reachable_Rep v Hr) as [l HR].
  destruct (pop_Rep v l HR Hpos) as (w & Hw & HRw).
  destruct (Rep_size v l HR) as [Hsv _]. destruct (Rep_size w _ HRw) as [Hsw _].
  unfold init in Hsw, HRw. rewrite length_take in Hsw.
  exists w. split_and!.
  - exact Hw.
  - eapply reach_pop; eassumption.
  - lia.
  - intros j Hj. rewrite (get_Rep w _ _ HRw), (get_Rep v _ _ HR) by lia. f_equal.
    rewrite lookup_total_take. rewrite decide_True by lia. reflexivity.
Qed.

Lemma pop_drops_last_witness :
  exists w,
    PVec.pop vec70 = Ok w /\ reachable w /\
    PVec.size w = PVec.size vec70 - 1 /\
    (forall j, 0 <= j < PVec.size vec70 - 1 -> PVec.get w j = PVec.get vec70 j).
Proof.
  apply (pop_drops_last vec70).
  - apply vec70_reachable.
  - vm_compute. reflexivity.
Defined.



(** X5.  On a non-empty reachable vector, [peek()] returns an element [x],
    [pop()] returns a vector, and pushing [x] back onto it returns a vector
    with the size and the iteration order of the original. *)
Theorem pop_then_push v :
  reachable v -> 0 < PVec.size v ->
  exists x w u l,
    PVec.peek v = Ok x /\ PVec.pop v = Ok w /\ PVec.push w x = Ok u /\
    toArray v = Ok l /\ toArray u = Ok l /\ PVec.size u = PVec.size v.
Proof.
  intros Hr Hpos. destruct (reachable_Rep v Hr) as [l HR].
  destruct (Rep_size v l HR) as [Hsv Hb].
  destruct (snoc_inv l) as (l' & x & ->).
  { intros ->. cbn [length] in Hsv. lia. }
  rewrite length_app in Hsv. cbn [length] in Hsv.
  destruct (pop_Rep v _ HR Hpos) as (w & Hw & HRw). rewrite init_snoc in HRw.
  destruct (Rep_size w l' HRw) as [Hsw _].
  destruct (push_room w l' x HRw ltac:(lia)) as (u & Hu & HRu).
  destruct (Rep_size u _ HRu) as [Hsu _]. rewrite length_app in Hsu. cbn [length] in Hsu.
  exists x, w, u, (l' ++ [x]). split_and!.
  - unfold PVec.peek. destruct (Z.gtb_spec (PVec.size v) 0); [|lia].
    rewrite (get_Rep v _ _ HR) by lia. f_equal.
    apply list_lookup_total_middle. lia.
  - exact Hw.
  - exact Hu.
  - apply toArray_Rep. exact HR.
  - apply toArray_Rep. exact HRu.
  - lia.
Qed.

Lemma pop_then_push_witness :
  exists x w u l,
    PVec.peek vec70 = Ok x /\ PVec.pop vec70 = Ok w /\ PVec.push w x = Ok u /\
    toArray vec70 = Ok l /\ toArray u = Ok l /\ PVec.size u = PVec.size vec70.
Proof.
  apply (pop_then_push vec70).
  - apply vec70_reachable.
  - vm_compute. reflexivity.
Defined.

(** X6.  [peek()] never throws on a reachable vector: it returns the last
    element of the iteration order, and [null] when there is none. *)
Theorem peek_is_last v :
  reachable v ->
  exists l, toArray v = Ok l /\ PVec.peek v = Ok (default JNull (last l)).
Proof.
  intros Hr. destruct (reachable_Rep v Hr) as [l HR].
  destruct (Rep_size v l HR) as [Hsv Hb].
  exists l. split; [apply toArray_Rep; exact HR|].
  unfold PVec.peek. destruct l as [|y l0] using rev_ind.
  - cbn [length] in Hsv. destruct (Z.gtb_spec (PVec.size v) 0); [lia|]. reflexivity.
  - clear IHl0. rewrite length_app in Hsv. cbn [length] in Hsv.
    destruct (Z.gtb_spec (PVec.size v) 0); [|lia].
    rewrite (get_Rep v _ _ HR) by lia. rewrite last_default_snoc. f_equal.
    apply list_lookup_total_middle. lia.
Qed.

Lemma peek_is_last_witness :
  exists l, toArray vec70 = Ok l /\ PVec.peek vec70 = Ok (default JNull (last l)).
Proof. apply (peek_is_last vec70). apply vec70_reachable. Defined.



(** X8.  The height of a reachable vector is a function of its size: the
    shift is 0 up to 64 elements, 5 up to 1056 elements and 10 beyond. *)
Theorem shift_follows_size v :
  reachable v -> PVec.shift v = shift_of_size (PVec.size v).
Proof.
  intros Hr. destruct (reachable_Rep v Hr) as [l HR]. apply (shift_Rep v l HR).
Qed.

Lemma shift_follows_size_witness : PVec.shift vec70 = shift_of_size (PVec.size vec70).
Proof. apply (shift_follows_size vec70). apply vec70_reachable. Defined.

(** X9.  On every reachable vector (after any mix of [push], [set] and
    [pop]) the cursor ends without throwing and yields exactly [size]
    elements: [get(0)], ..., [get(size - 1)] in this order. *)
Theorem toArray_is_get_all v :
  reachable v ->
  exists l,
    toArray v = Ok l /\ get_all v = Ok l /\ Z.of_nat (length l) = PVec.size v.
Proof.
  intros Hr. destruct (reachable_Rep v Hr) as [l HR].
  destruct (Rep_size v l HR) as [Hsv _].
  exists l. split_and!; [apply toArray_Rep | apply get_all_Rep | lia]; exact HR.
Qed.

Lemma toArray_is_get_all_witness :
  exists w l,
    PVec.set vec70 3 (JNum 9) = Ok w /\
    toArray w = Ok l /\ get_all w = Ok l /\ Z.of_nat (length l) = PVec.size w.
Proof.
  eexists.
  assert (Hw : PVec.set vec70 3 (JNum 9) = Ok _) by (vm_compute; reflexivity).
  destruct (toArray_is_get_all _ (reach_set _ _ _ _ vec70_reachable Hw)) as (l & Hl).
  exists l. split; [exact Hw | exact Hl].
Defined.

(** X10.  [PVec.from(xs).toArray()] gives back [xs] when [xs] has at most
    2080 elements, and [PVec.from(xs)] throws a [TypeError] when it has
    more. *)
Theorem from_toArray xs :
  ((length xs <= 2080)%nat ->
   exists v,
     PVec.from xs = Ok v /\ reachable v /\
     PVec.size v = Z.of_nat (length xs) /\ toArray v = Ok xs) /\
  ((2080 < length xs)%nat -> PVec.from xs = Throw TypeError).
Proof.
  split; intros Hlen.
  - destruct (from_Rep xs Hlen) as (v & Hv & HR).
    destruct (Rep_size v xs HR) as [Hsv _].
    exists v. split_and!.
    + exact Hv.
    + apply (concat_reachable xs PVec.empty); [apply reach_empty | exact Hv].
    + exact Hsv.
    + apply toArray_Rep. exact HR.
  - apply (concat_too_long xs PVec.empty [] Rep_empty). cbn [length]. lia.
Qed.

Lemma from_toArray_witness :
  exists v,
    PVec.from (nums 70) = Ok v /\ reachable v /\
    PVec.size v = Z.of_nat (length (nums 70)) /\ toArray v = Ok (nums 70).
Proof.
  destruct (from_toArray (nums 70)) as [H _]. apply H. rewrite nums_length. lia.
Defined.

(** X11.  [concat(xs)] on a reachable vector holding [l] returns a vector
    that iterates over [l] followed by [xs] when the total is at most 2080
    elements, and throws a [TypeError] otherwise. *)
Theorem concat_appends v xs :
  reachable v ->
  exists l,
    toArray v = Ok l /\
    ((length l + length xs <= 2080)%nat ->
     exists w, PVec.concat v xs = Ok w /\ reachable w /\ toArray w = Ok (l ++ xs)) /\
    ((2080 < length l + length xs)%nat -> PVec.concat v xs = Throw TypeError).
Proof.
  intros Hr. destruct (reachable_Rep v Hr) as [l HR].
  exists l. split_and!.
  - apply toArray_Rep. exact HR.
  - intros Hlen. destruct (concat_Rep xs v l HR Hlen) as (w & Hw & HRw).
    exists w. split_and!.
    + exact Hw.
    + eapply concat_reachable; eassumption.
    + apply toArray_Rep. exact HRw.
  - intros Hlen. apply (concat_too_long xs v l HR Hlen).
Qed.

Lemma concat_appends_witness :
  exists l,
    toArray vec70 = Ok l /\
    ((length l + length (nums 3) <= 2080)%nat ->
     exists w, PVec.concat vec70 (nums 3) = Ok w /\ reachable w /\
               toArray w = Ok (l ++ nums 3)) /\
    ((2080 < length l + length (nums 3))%nat ->
     PVec.concat vec70 (nums 3) = Throw TypeError).
Proof. apply (concat_appends vec70 (nums 3)). apply vec70_reachable. Defined.

(** X12.  [map(f)] on a reachable vector, for a callback that returns,
    returns a vector of the same size that iterates over the images of the
    elements, in order. *)
Theorem map_elements (f : jsval -> jsval) v :
  reachable v ->
  exists l w,
    toArray v = Ok l /\ Functional.map f v = Ok w /\ reachable w /\
    PVec.size w = PVec.size v /\ toArray w = Ok (f <$> l).
Proof.
  intros Hr. destruct (reachable_Rep v Hr) as [l HR].
  destruct (Rep_size v l HR) as [Hsv Hb].
  pose proof (toArray_Rep v l HR) as Ht.
  destruct (fold_push_Rep (fun x => Some (f x)) l PVec.empty [] Rep_empty) as (w & Hw & HRw).
  { cbn [length]. lia. }
  rewrite app_nil_l, omap_Some_fmap in HRw.
  destruct (Rep_size w _ HRw) as [Hsw _]. rewrite length_fmap in Hsw.
  exists l, w. split_and!.
  - exact Ht.
  - unfold Functional.map. unfold toArray in Ht.
    destruct (iterate v) as [it|]; cbn [mbind result_bind] in *; [|discriminate].
    rewrite (for_of_drain _ _ it PVec.empty l Ht). exact Hw.
  - apply (fold_push_reachable (fun x => Some (f x)) l PVec.empty w reach_empty Hw).
  - lia.
  - apply toArray_Rep. exact HRw.
Qed.

Lemma map_elements_witness :
  exists l w,
    toArray vec70 = Ok l /\ Functional.map (fun x => JArr [x]) vec70 = Ok w /\
    reachable w /\ PVec.size w = PVec.size vec70 /\
    toArray w = Ok ((fun x => JArr [x]) <$> l).
Proof. apply (map_elements (fun x => JArr [x]) vec70). apply vec70_reachable. Defined.

(** X13.  [reduce(f, init)] on a reachable vector is the left fold of [f]
    over the elements in iteration order, starting from [init]; it throws
    only if [f] does. *)
Theorem reduce_is_fold {A} (f : A -> jsval -> result A) (init : A) v :
  reachable v ->
  exists l, toArray v = Ok l /\ Functional.reduce f init v = fold_result f init l.
Proof.
  intros Hr. destruct (reachable_Rep v Hr) as [l HR].
  exists l. split; [apply toArray_Rep; exact HR | apply reduce_Rep; exact HR].
Qed.

Lemma reduce_is_fold_witness :
  exists l,
    toArray vec70 = Ok l /\
    Functional.reduce (fun (acc : Z) x => match x with JNum n => Ok (acc + n) | _ => Throw TypeError end)
      0 vec70 =
    fold_result (fun (acc : Z) x => match x with JNum n => Ok (acc + n) | _ => Throw TypeError end)
      0 l.
Proof.
  apply (reduce_is_fold
           (fun (acc : Z) x => match x with JNum n => Ok (acc + n) | _ => Throw TypeError end)
           0 vec70).
  apply vec70_reachable.
Defined.

(** X14.  [filter(predicate)] on a reachable vector returns a vector that
    iterates over the elements the predicate accepts, in their original
    order. *)
Theorem filter_elements (predicate : jsval -> bool) v :
  reachable v ->
  exists l w,
    toArray v = Ok l /\ Functional.filter predicate v = Ok w /\ reachable w /\
    toArray w = Ok (List.filter predicate l).
Proof.
  intros Hr. destruct (reachable_Rep v Hr) as [l HR].
  destruct (Rep_size v l HR) as [Hsv Hb].
  destruct (fold_push_Rep (fun x => if predicate x then Some x else None) l PVec.empty []
              Rep_empty) as (w & Hw & HRw).
  { cbn [length]. lia. }
  rewrite app_nil_l, omap_if_filter in HRw.
  assert (Hf : Functional.filter predicate v = Ok w).
  { unfold Functional.filter. rewrite (reduce_Rep _ _ v l HR). rewrite <- Hw.
    apply fold_result_ext. intros a x. destruct (predicate x); reflexivity. }
  exists l, w. split_and!.
  - apply toArray_Rep. exact HR.
  - exact Hf.
  - apply (fold_push_reachable (fun x => if predicate x then Some x else None) l
             PVec.empty w reach_empty Hw).
  - apply toArray_Rep. exact HRw.
Qed.

Lemma filter_elements_witness :
  exists l w,
    toArray vec70 = Ok l /\
    Functional.filter (fun x => js_strict_eq x (JNum 5)) vec70 = Ok w /\ reachable w /\
    toArray w = Ok (List.filter (fun x => js_strict_eq x (JNum 5)) l).
Proof.
  apply (filter_elements (fun x => js_strict_eq x (JNum 5)) vec70). apply vec70_reachable.
Defined.



(** X16.  For any size between 1 and 2^31 - 1, [#tailOffset()] is a multiple
    of 32, [#tailSize()] lies between 1 and 32, and the two add up to the
    size. *)
Theorem tailOffset_plus_tailSize (v : PVec.t) :
  0 < PVec.size v < two31 ->
  PVec.tailOffset v + PVec.tailSize v = PVec.size v /\
  1 <= PVec.tailSize v <= 32 /\
  PVec.tailOffset v mod 32 = 0.
Proof.
  intros Hs. unfold PVec.tailOffset, PVec.tailSize.
  destruct (Z.eqb_spec (PVec.size v) 0); [lia|].
  rewrite js_and_not_MASK, js_and_MASK by lia.
  pose proof (Z.div_mod (PVec.size v - 1) 32 ltac:(lia)).
  pose proof (Z.mod_pos_bound (PVec.size v - 1) 32 ltac:(lia)).
  split_and!; try lia.
  rewrite Z.mul_comm. apply Z.mod_mul. lia.
Qed.

Lemma tailOffset_plus_tailSize_witness :
  PVec.tailOffset vec70 + PVec.tailSize vec70 = PVec.size vec70 /\
  1 <= PVec.tailSize vec70 <= 32 /\
  PVec.tailOffset vec70 mod 32 = 0.
Proof. apply (tailOffset_plus_tailSize vec70). vm_compute. split; reflexivity. Defined.

(** X17.  [set(i, x)] with [i] in range on a reachable vector returns a
    vector of the same size and shift whose iteration order is the original
    one with the element at position [i] replaced by [x]. *)
Theorem set_replaces_one v i x :
  reachable v -> 0 <= i < PVec.size v ->
  exists l w,
    toArray v = Ok l /\ PVec.set v i x = Ok w /\ reachable w /\
    PVec.size w = PVec.size v /\ PVec.shift w = PVec.shift v /\
    toArray w = Ok (<[Z.to_nat i := x]> l).
Proof.
  intros Hr Hi. destruct (reachable_Rep v Hr) as [l HR].
  destruct (set_Rep v l i x HR Hi) as (w & Hw & HRw).
  destruct (Rep_size v l HR) as [Hsv _]. destruct (Rep_size w _ HRw) as [Hsw _].
  rewrite length_insert in Hsw.
  exists l, w. split_and!.
  - apply toArray_Rep. exact HR.
  - exact Hw.
  - eapply reach_set; eassumption.
  - lia.
  - rewrite (shift_Rep v l HR), (shift_Rep w _ HRw). f_equal. lia.
  - apply toArray_Rep. exact HRw.
Qed.

Lemma set_replaces_one_witness :
  exists l w,
    toArray vec70 = Ok l /\ PVec.set vec70 40 JNull = Ok w /\ reachable w /\
    PVec.size w = PVec.size vec70 /\ PVec.shift w = PVec.shift vec70 /\
    toArray w = Ok (<[Z.to_nat 40 := JNull]> l).
Proof.
  apply (set_replaces_one vec70 40 JNull).
  - apply vec70_reachable.
  - vm_compute. split; [discriminate | reflexivity].
Defined.

(** X18.  In the store model [get] leaves the store exactly as it found it,
    whether it returns or throws. *)
Theorem get_leaves_store (v : Heap.t) i (h : Heap.store) : (Heap.get v i h).2 = h.
Proof. apply (reads_get v i h). Qed.

